(** * A shallow embedding of the dnd-app combat core

    Sources embedded here:
    - the rules engine ([RulesEngine]: dice, attack and damage resolution,
      hit-point bookkeeping),
    - the combat manager ([CombatManager]: initiative order, turn scheduling,
      attack orchestration, end-of-combat detection),
    - the enemy policy ([EnemyAI.decideAction]).

    Conventions.  JavaScript numbers are modelled by [Z] wherever the program
    only adds, subtracts and compares integers, and by exact rationals [Q]
    where it divides or draws from [Math.random]; rounding of IEEE doubles is
    not modelled.  [Math.random] is an explicit random source threaded through
    the code that draws from it.  Combatant objects live in a store indexed by
    references, because the manager mutates the very objects it was handed. *)

From Stdlib Require Import ZArith QArith Qround Bool List String DecimalString.
From Stdlib Require Import Lia Permutation Sorted.
Import ListNotations.

Open Scope string_scope.
Open Scope Z_scope.

(** ** JavaScript odds and ends *)

Module Js.

(** [String(n)] for an integer [n], as used by template literals. *)
Definition show (z : Z) : string := NilZero.string_of_int (Z.to_int z).

(** The line feed written [\n] in the source. *)
Definition nl : string := String (Ascii.ascii_of_nat 10) EmptyString.

(** [Array.prototype.join]. *)
Definition join (sep : string) (parts : list string) : string :=
  String.concat sep parts.

(** Strict [<] on rationals, as a boolean. *)
Definition Qltb (x y : Q) : bool := negb (Qle_bool y x).

(** The result of [a / b] on two integers: a finite quotient, an infinity
    when only the divisor is zero, [NaN] for [0 / 0]. *)
Inductive quotient : Type :=
| Fin (q : Q)
| PosInf
| NegInf
| QNaN.

Definition div (a b : Z) : quotient :=
  if b =? 0 then
    (if a =? 0 then QNaN else if 0 <? a then PosInf else NegInf)
  else Fin (inject_Z a / inject_Z b).

(** [x < y] on such results; every comparison with [NaN] is false. *)
Definition lt (x y : quotient) : bool :=
  match x, y with
  | QNaN, _ | _, QNaN => false
  | _, NegInf => false
  | NegInf, _ => true
  | PosInf, _ => false
  | Fin _, PosInf => true
  | Fin p, Fin q => Qltb p q
  end.

(** [String.prototype.toLowerCase], on ASCII text: the letters [A]-[Z] are
    mapped to [a]-[z], every other byte is kept.  (On text outside ASCII the
    method does more; names are taken to be ASCII where it is used.) *)
Definition lower (c : Ascii.ascii) : Ascii.ascii :=
  let n := Ascii.nat_of_ascii c in
  if (Nat.leb 65 n && Nat.leb n 90)%bool then Ascii.ascii_of_nat (n + 32) else c.

Fixpoint toLowerCase (s : string) : string :=
  match s with
  | EmptyString => EmptyString
  | String c rest => String (lower c) (toLowerCase rest)
  end.

(** [String.prototype.includes]: does [pat] occur somewhere in [s]? *)
Fixpoint includes (s pat : string) : bool :=
  (String.prefix pat s
   || match s with
      | EmptyString => false
      | String _ rest => includes rest pat
      end)%bool.

End Js.

(** ** A state monad for code that threads a store *)

Definition State (S A : Type) : Type := S -> A * S.

Definition ret {S A} (a : A) : State S A := fun s => (a, s).

Definition bind {S A B} (m : State S A) (k : A -> State S B) : State S B :=
  fun s => let (a, s') := m s in k a s'.

Notation "x <- m ;; k" := (bind m (fun x => k))
  (at level 61, m at next level, right associativity).
Notation "m ;;; k" := (bind m (fun _ => k))
  (at level 61, right associativity).

(** ** The random source behind [Math.random]

    [sample i] is the i-th number the source will ever hand out and [cursor]
    counts the draws made so far. *)

Record RandomSource : Type := {
  sample : nat -> Q;
  cursor : nat
}.

Definition Rand (A : Type) : Type := State RandomSource A.

Definition random : Rand Q :=
  fun g => (sample g (cursor g), {| sample := sample g; cursor := S (cursor g) |}).

(** [Math.random] promises a number in [0, 1). *)
Definition unit_draws (g : RandomSource) : Prop :=
  forall i, (0 <= sample g i)%Q /\ (sample g i < 1)%Q.

(** A source that replays the given numbers and then repeats [0]. *)
Definition forced (draws : list Q) : RandomSource :=
  {| sample := fun i => nth i draws 0%Q; cursor := 0 |}.

(** ** Rules engine *)

Module RulesEngine.

Record RollResult : Type := {
  d20 : Z;
  modifiers : list Z;
  total : Z;
  criticalHit : bool;
  criticalMiss : bool
}.

Record RulesResolution : Type := {
  success : bool;
  roll : RollResult;
  dc : Z;
  effectSummary : string;
  resolutionNotes : list string
}.

(** [Math.floor(Math.random() * sides) + 1] *)
Definition die (sides : Z) (r : Q) : Z := Qfloor (r * inject_Z sides) + 1.

Definition rollD20 (mods : list Z) : Rand RollResult :=
  r <- random ;;
  let d := die 20 r in
  let modifierSum := fold_left Z.add mods 0 in
  ret {| d20 := d; modifiers := mods; total := d + modifierSum;
         criticalHit := d =? 20; criticalMiss := d =? 1 |}.

(** The [for] loop of [rollDice], with [n] iterations left. *)
Fixpoint rollDice_loop (n : nat) (sides : Z) (acc : Z) : Rand Z :=
  match n with
  | O => ret acc
  | S n' => r <- random ;; rollDice_loop n' sides (acc + die sides r)
  end.

Definition rollDice (count sides modifier : Z) : Rand Z :=
  rollDice_loop (Z.to_nat count) sides modifier.

Definition getAbilityModifier (abilityScore : Z) : Z := (abilityScore - 10) / 2.

Definition resolveAttack (attackBonus targetAC : Z) (additionalModifiers : list Z)
  : Rand RulesResolution :=
  rl <- rollD20 (attackBonus :: additionalModifiers) ;;
  let ok := targetAC <=? total rl in
  ret {| success := ok; roll := rl; dc := targetAC;
         effectSummary := if ok then "Attack hits!" else "Attack misses.";
         resolutionNotes :=
           ["Rolled " ++ Js.show (d20 rl) ++ " + " ++ Js.show attackBonus ++ " = "
              ++ Js.show (total rl) ++ " vs AC " ++ Js.show targetAC] |}.

Definition resolveDamage (diceCount diceSides damageModifier : Z) (isCritical : bool)
  : Rand Z :=
  damage <- rollDice diceCount diceSides damageModifier ;;
  damage <- (if isCritical
             then extra <- rollDice diceCount diceSides 0 ;; ret (damage + extra)
             else ret damage) ;;
  ret (Z.max 0 damage).

Definition resolveInitiative (initiativeModifier : Z) : Rand Z :=
  rl <- rollD20 [initiativeModifier] ;; ret (total rl).

Inductive Status : Type := Healthy | Wounded | Disabled | Dying | Dead.

Record Condition : Type := { cond_name : string; cond_description : string }.

Record StatusChange : Type := {
  sc_target : string;
  sc_type : string;
  sc_change : Condition
}.

Record DamageOutcome : Type := {
  newHP : Z;
  status : Status;
  statusChanges : list StatusChange
}.

Definition condition (n d : string) : StatusChange :=
  {| sc_target := "self"; sc_type := "condition";
     sc_change := {| cond_name := n; cond_description := d |} |}.

Definition applyDamage (currentHP maxHP damage : Z) : DamageOutcome :=
  let hp' := Z.max (-10) (currentHP - damage) in
  if hp' <=? -10 then
    {| newHP := hp'; status := Dead;
       statusChanges := [condition "Dead" "Character is dead"] |}
  else if hp' <? 0 then
    {| newHP := hp'; status := Dying;
       statusChanges := [condition "Dying" "Character is dying and must stabilize"] |}
  else if hp' =? 0 then
    {| newHP := hp'; status := Disabled;
       statusChanges :=
         [condition "Disabled"
            "Character can take only a single move or standard action"] |}
  else if Js.Qltb (inject_Z hp') (inject_Z maxHP / 2) then
    {| newHP := hp'; status := Wounded; statusChanges := [] |}
  else
    {| newHP := hp'; status := Healthy; statusChanges := [] |}.

Record HealingOutcome : Type := { healedHP : Z; overheal : Z }.

Definition applyHealing (currentHP maxHP healing : Z) : HealingOutcome :=
  {| healedHP := Z.min maxHP (currentHP + healing);
     overheal := Z.max 0 ((currentHP + healing) - maxHP) |}.

(** *** The remaining checks and calculators *)

Definition resolveSavingThrow (saveBonus dc' : Z) (additionalModifiers : list Z)
  : Rand RulesResolution :=
  rl <- rollD20 (saveBonus :: additionalModifiers) ;;
  let ok := dc' <=? total rl in
  ret {| success := ok; roll := rl; dc := dc';
         effectSummary := if ok then "Save successful!" else "Save failed.";
         resolutionNotes :=
           ["Rolled " ++ Js.show (d20 rl) ++ " + " ++ Js.show saveBonus ++ " = "
              ++ Js.show (total rl) ++ " vs DC " ++ Js.show dc'] |}.

Definition resolveSkillCheck (skillBonus dc' : Z) (additionalModifiers : list Z)
  : Rand RulesResolution :=
  rl <- rollD20 (skillBonus :: additionalModifiers) ;;
  let ok := dc' <=? total rl in
  ret {| success := ok; roll := rl; dc := dc';
         effectSummary := if ok then "Check successful!" else "Check failed.";
         resolutionNotes :=
           ["Rolled " ++ Js.show (d20 rl) ++ " + " ++ Js.show skillBonus ++ " = "
              ++ Js.show (total rl) ++ " vs DC " ++ Js.show dc'] |}.

Definition calculateAttackBonus (baseAttackBonus abilityModifier : Z)
  (otherModifiers : list Z) : Z :=
  baseAttackBonus + abilityModifier + fold_left Z.add otherModifiers 0.

Record ArmorClass : Type := { ac_total : Z; flatFooted : Z; touch : Z }.

Definition calculateAC (baseAC dexModifier armorBonus shieldBonus : Z)
  (otherModifiers : list Z) : ArmorClass :=
  {| ac_total := baseAC + dexModifier + armorBonus + shieldBonus
                 + fold_left Z.add otherModifiers 0;
     flatFooted := baseAC + armorBonus + shieldBonus + fold_left Z.add otherModifiers 0;
     touch := baseAC + dexModifier + fold_left Z.add otherModifiers 0 |}.

(** The optional fields of the context: [None] is [undefined]. *)
Record ActionContext : Type := {
  hasStandardAction : option bool;
  hasMoveAction : option bool;
  hasSwiftAction : option bool;
  movementRemaining : option Z
}.

Record Validity : Type := { valid : bool; invalid_reason : option string }.

(** [!x] on an optional boolean. *)
Definition lacks (x : option bool) : bool :=
  match x with
  | Some b => negb b
  | None => true
  end.

Definition refuse (why : string) : Validity :=
  {| valid := false; invalid_reason := Some why |}.

Definition validateAction (actionType : string) (context : ActionContext) : Validity :=
  let allow := {| valid := true; invalid_reason := None |} in
  if String.eqb actionType "standard" then
    if lacks (hasStandardAction context)
    then refuse "No standard action available" else allow
  else if String.eqb actionType "move" then
    if lacks (hasMoveAction context)
    then refuse "No move action available" else allow
  else if String.eqb actionType "swift" then
    if lacks (hasSwiftAction context)
    then refuse "No swift action available" else allow
  else if String.eqb actionType "full" then
    if lacks (hasStandardAction context) || lacks (hasMoveAction context)
    then refuse "Full-round action requires both standard and move actions" else allow
  else if String.eqb actionType "movement" then
    match movementRemaining context with
    | Some feet => if feet <=? 0 then refuse "No movement remaining" else allow
    | None => allow
    end
  else allow.

Definition threatsCritical (d20Roll criticalRange : Z) : bool :=
  criticalRange <=? d20Roll.

Definition confirmCritical (attackBonus targetAC : Z) (additionalModifiers : list Z)
  : Rand bool :=
  confirmRoll <- rollD20 (attackBonus :: additionalModifiers) ;;
  ret (targetAC <=? total confirmRoll).

Definition calculateSkillModifier (ranks abilityModifier : Z) (isClassSkill : bool)
  (otherModifiers : list Z) : Z :=
  let classSkillBonus := if isClassSkill && (0 <? ranks) then 3 else 0 in
  ranks + abilityModifier + classSkillBonus + fold_left Z.add otherModifiers 0.

Definition getSpellDC (spellLevel casterAbilityModifier : Z) : Z :=
  10 + spellLevel + casterAbilityModifier.

(** *** Vocabulary for the statements about dice *)

(** The faces shown by the [n] draws that start at position [from]. *)
Definition faces (g : RandomSource) (sides : Z) (from n : nat) : list Z :=
  map (fun i => die sides (sample g i)) (seq from n).

Definition sum (l : list Z) : Z := fold_right Z.add 0 l.

(** The source after [n] more draws. *)
Definition skip (n : nat) (g : RandomSource) : RandomSource :=
  {| sample := sample g; cursor := (cursor g + n)%nat |}.

End RulesEngine.

(** ** Combat manager *)

Module CombatManager.

Record Hp : Type := { current : Z; max : Z }.

(** The optional [character] back-pointer is never read by the manager and
    is left out. *)
Record Combatant : Type := {
  id : string;
  name : string;
  initiative : Z;
  hp : Hp;
  ac : Z;
  isPlayer : bool;
  isDefeated : bool
}.

(** [c.hp.current = v] *)
Definition set_current (v : Z) (c : Combatant) : Combatant :=
  {| id := id c; name := name c; initiative := initiative c;
     hp := {| current := v; max := max (hp c) |};
     ac := ac c; isPlayer := isPlayer c; isDefeated := isDefeated c |}.

(** [c.isDefeated = true] *)
Definition set_defeated (c : Combatant) : Combatant :=
  {| id := id c; name := name c; initiative := initiative c; hp := hp c;
     ac := ac c; isPlayer := isPlayer c; isDefeated := true |}.

(** Combatants are objects: the manager keeps references to the objects
    the caller built and writes to them in place. *)
Definition Ref : Type := nat.
Definition Store : Type := Ref -> Combatant.

Definition write (r : Ref) (c : Combatant) (h : Store) : Store :=
  fun r' => if Nat.eqb r' r then c else h r'.

(** [turnIndex] is a number; it turns into [NaN] when [nextTurn] takes a
    remainder modulo an empty roster. *)
Inductive Index : Type :=
| Num (z : Z)
| NaN.

Record CombatState : Type := {
  round : Z;
  turnIndex : Index;
  combatants : list Ref;
  combatLog : list string;
  isActive : bool
}.

(** Everything the manager's methods can read or write. *)
Record Machine : Type := {
  objects : Store;
  state : CombatState;
  rng : RandomSource
}.

Definition Mgr (A : Type) : Type := State Machine A.

Definition get_state : Mgr CombatState := fun m => (state m, m).
Definition put_state (s : CombatState) : Mgr unit :=
  fun m => (tt, {| objects := objects m; state := s; rng := rng m |}).
Definition deref (r : Ref) : Mgr Combatant := fun m => (objects m r, m).
Definition assign (r : Ref) (f : Combatant -> Combatant) : Mgr unit :=
  fun m => (tt, {| objects := write r (f (objects m r)) (objects m);
                   state := state m; rng := rng m |}).
Definition draw {A} (c : Rand A) : Mgr A :=
  fun m => let (a, g) := c (rng m) in
           (a, {| objects := objects m; state := state m; rng := g |}).

(** The state a freshly constructed manager holds. *)
Definition constructed : CombatState :=
  {| round := 0; turnIndex := Num 0; combatants := []; combatLog := [];
     isActive := false |}.

Definition addToLog (entry : string) : Mgr unit :=
  s <- get_state ;;
  put_state {| round := round s; turnIndex := turnIndex s;
               combatants := combatants s;
               combatLog := combatLog s ++ [entry];
               isActive := isActive s |}.

(** *** [Array.prototype.sort]

    The language guarantees a stable sort; with a comparator that is a
    consistent ordering the result is the one this insertion sort builds:
    [x] is put in front of the first [y] it does not have to follow. *)
Section Sort.
Context {A : Type} (cmp : A -> A -> Z).

Fixpoint insert (x : A) (l : list A) : list A :=
  match l with
  | [] => [x]
  | y :: l' => if cmp x y <=? 0 then x :: y :: l' else y :: insert x l'
  end.

Definition sort (l : list A) : list A := fold_right insert [] l.
End Sort.

Definition startCombat (roster : list Ref) : Mgr unit :=
  fun m =>
    let h := objects m in
    let sortedCombatants :=
      sort (fun a b => initiative (h b) - initiative (h a)) roster in
    (put_state {| round := 1; turnIndex := Num 0;
                  combatants := sortedCombatants;
                  combatLog := ["⚔️  COMBAT BEGINS!"];
                  isActive := true |} ;;;
     addToLog ("Initiative order: "
                 ++ Js.join " → " (map (fun r => name (h r)) sortedCombatants))) m.

(** [arr[i]]: [undefined] outside the array and for [NaN]. *)
Definition at_index {A} (l : list A) (i : Index) : option A :=
  match i with
  | Num z => if z <? 0 then None else nth_error l (Z.to_nat z)
  | NaN => None
  end.

Definition getCurrentCombatant : Mgr (option Ref) :=
  s <- get_state ;;
  if negb (isActive s) || (Nat.eqb (List.length (combatants s)) 0)
  then ret None
  else ret (at_index (combatants s) (turnIndex s)).

Definition getActiveCombatants : Mgr (list Ref) :=
  fun m => (filter (fun r => negb (isDefeated (objects m r))) (combatants (state m)), m).

Definition getCombatant (key : string) : Mgr (option Ref) :=
  fun m => (find (fun r => String.eqb (id (objects m r)) key) (combatants (state m)), m).

Definition set_turnIndex (i : Index) (s : CombatState) : CombatState :=
  {| round := round s; turnIndex := i; combatants := combatants s;
     combatLog := combatLog s; isActive := isActive s |}.

Definition set_round (n : Z) (s : CombatState) : CombatState :=
  {| round := n; turnIndex := turnIndex s; combatants := combatants s;
     combatLog := combatLog s; isActive := isActive s |}.

Definition set_isActive (b : bool) (s : CombatState) : CombatState :=
  {| round := round s; turnIndex := turnIndex s; combatants := combatants s;
     combatLog := combatLog s; isActive := b |}.

Definition modify_state (f : CombatState -> CombatState) : Mgr unit :=
  s <- get_state ;; put_state (f s).

(** *** Attacks *)

Record DamageRoll : Type := { dice : Z; sides : Z; bonus : Z }.

Record AttackReport : Type := {
  success : bool;
  damage : option Z;
  narrative : string
}.

(** What awaiting an [async] method yields: its value, or a rejection. *)
Inductive Promise (A : Type) : Type :=
| Resolved (a : A)
| Rejected.
Arguments Resolved {A} a.
Arguments Rejected {A}.

(** [generateCombatNarrative(actor, action, target, {success, damage})]:
    the text comes from a language model, or from a fallback when the model
    cannot be reached, so the method always answers with some string. *)
Definition Narrator : Type := string -> string -> string -> bool -> option Z -> string.

(** [target.hp.current = Math.max(0, target.hp.current - damage)] followed by
    [if (target.hp.current === 0) target.isDefeated = true]. *)
Definition wound (amount : Z) (c : Combatant) : Combatant :=
  let c' := set_current (Z.max 0 (current (hp c) - amount)) c in
  if current (hp c') =? 0 then set_defeated c' else c'.

(** [target.hp.current = Math.min(target.hp.max, target.hp.current + healing)] *)
Definition heal (healing : Z) (c : Combatant) : Combatant :=
  set_current (Z.min (max (hp c)) (current (hp c) + healing)) c.

Section WithAgent.

(** The collaborator handed to the constructor.  One of the two drivers
    constructs the manager with [null]; calling a method of it throws, so
    the attack's promise is rejected at that point. *)
Variable dmAgent : option Narrator.

Definition describe (actorName targetName : string) (hit : bool) (dmg : option Z)
  : Promise string :=
  match dmAgent with
  | Some generateCombatNarrative =>
      Resolved (generateCombatNarrative actorName "melee attack" targetName hit dmg)
  | None => Rejected
  end.

Definition processAttack (actorId targetId : string) (attackBonus : Z)
  (damageRoll : DamageRoll) : Mgr (Promise AttackReport) :=
  actor <- getCombatant actorId ;;
  target <- getCombatant targetId ;;
  match actor, target with
  | Some a, Some t =>
      tgt <- deref t ;;
      if isDefeated tgt then
        ret (Resolved {| success := false; damage := None;
                         narrative := name tgt ++ " is already defeated!" |})
      else
        attackResult <- draw (RulesEngine.resolveAttack attackBonus (ac tgt) []) ;;
        if RulesEngine.success attackResult then
          dmg <- draw (RulesEngine.resolveDamage (dice damageRoll) (sides damageRoll)
                         (bonus damageRoll) false) ;;
          assign t (wound dmg) ;;;
          act <- deref a ;;
          tgt <- deref t ;;
          match describe (name act) (name tgt) true (Some dmg) with
          | Rejected => ret Rejected
          | Resolved text =>
              addToLog (name act ++ " attacks " ++ name tgt ++ ": HIT for "
                          ++ Js.show dmg ++ " damage! ("
                          ++ Js.show (current (hp tgt)) ++ "/"
                          ++ Js.show (max (hp tgt)) ++ " HP remaining)") ;;;
              (if isDefeated tgt
               then addToLog ("💀 " ++ name tgt ++ " has been defeated!")
               else ret tt) ;;;
              ret (Resolved {| success := true; damage := Some dmg;
                               narrative := text |})
          end
        else
          act <- deref a ;;
          match describe (name act) (name tgt) false None with
          | Rejected => ret Rejected
          | Resolved text =>
              addToLog (name act ++ " attacks " ++ name tgt ++ ": MISS!") ;;;
              ret (Resolved {| success := false; damage := None;
                               narrative := text |})
          end
  | _, _ =>
      ret (Resolved {| success := false; damage := None;
                       narrative := "Invalid combatants" |})
  end.

End WithAgent.

Definition applyDamage (targetId : string) (amount : Z) (source : string) : Mgr unit :=
  target <- getCombatant targetId ;;
  match target with
  | None => ret tt
  | Some t =>
      tgt <- deref t ;;
      if isDefeated tgt then ret tt
      else
        assign t (wound amount) ;;;
        tgt <- deref t ;;
        (if current (hp tgt) =? 0
         then addToLog ("💀 " ++ name tgt ++ " has been defeated!")
         else ret tt) ;;;
        addToLog (name tgt ++ " takes " ++ Js.show amount ++ " damage from " ++ source
                    ++ " (" ++ Js.show (current (hp tgt)) ++ "/"
                    ++ Js.show (max (hp tgt)) ++ " HP)")
  end.

Definition applyHealing (targetId : string) (healing : Z) (source : string) : Mgr unit :=
  target <- getCombatant targetId ;;
  match target with
  | None => ret tt
  | Some t =>
      tgt <- deref t ;;
      if isDefeated tgt then ret tt
      else
        let oldHP := current (hp tgt) in
        assign t (heal healing) ;;;
        tgt <- deref t ;;
        let actualHealing := current (hp tgt) - oldHP in
        addToLog (name tgt ++ " healed " ++ Js.show actualHealing ++ " HP from " ++ source
                    ++ " (" ++ Js.show (current (hp tgt)) ++ "/"
                    ++ Js.show (max (hp tgt)) ++ " HP)")
  end.

(** *** Turn order *)

Record TurnResult : Type := {
  newRound : bool;
  currentCombatant : option Ref
}.

(** [(turnIndex + 1) % length] *)
Definition advance (i : Index) (len : nat) : Index :=
  match i with
  | Num z => if Nat.eqb len 0 then NaN else Num (Z.rem (z + 1) (Z.of_nat len))
  | NaN => NaN
  end.

(** [turnIndex === 0] *)
Definition is_zero (i : Index) : bool :=
  match i with
  | Num z => z =? 0
  | NaN => false
  end.

(** The [do ... while (attempts < maxAttempts)] loop; [more] is the number
    of further iterations the loop condition still allows after this one. *)
Fixpoint nextTurn_loop (more : nat) : Mgr TurnResult :=
  s <- get_state ;;
  put_state (set_turnIndex (advance (turnIndex s) (List.length (combatants s))) s) ;;;
  s <- get_state ;;
  if is_zero (turnIndex s) then
    put_state (set_round (round s + 1) s) ;;;
    s <- get_state ;;
    addToLog (Js.nl ++ "=== ROUND " ++ Js.show (round s) ++ " ===") ;;;
    current <- getCurrentCombatant ;;
    ret {| newRound := true; currentCombatant := current |}
  else
    current <- getCurrentCombatant ;;
    live <- match current with
            | Some r => c <- deref r ;; ret (negb (isDefeated c))
            | None => ret false
            end ;;
    if live then ret {| newRound := false; currentCombatant := current |}
    else
      match more with
      | O => ret {| newRound := false; currentCombatant := None |}
      | S more' => nextTurn_loop more'
      end.

Definition nextTurn : Mgr TurnResult :=
  s <- get_state ;;
  if negb (isActive s) then ret {| newRound := false; currentCombatant := None |}
  else
    let maxAttempts := List.length (combatants s) in
    nextTurn_loop (Nat.pred maxAttempts).

(** *** End of combat *)

Inductive Side : Type := Players | Enemies.

Record EndCheck : Type := {
  ended : bool;
  winners : option Side;
  reason : option string
}.

Definition checkCombatEnd : Mgr EndCheck :=
  fun m =>
    let h := objects m in
    let activePlayers :=
      filter (fun r => isPlayer (h r) && negb (isDefeated (h r))) (combatants (state m)) in
    let activeEnemies :=
      filter (fun r => negb (isPlayer (h r)) && negb (isDefeated (h r)))
        (combatants (state m)) in
    if Nat.eqb (List.length activePlayers) 0 then
      (modify_state (set_isActive false) ;;;
       addToLog (Js.nl ++ "💀 All players defeated! DEFEAT!") ;;;
       ret {| ended := true; winners := Some Enemies;
              reason := Some "All players defeated" |}) m
    else if Nat.eqb (List.length activeEnemies) 0 then
      (modify_state (set_isActive false) ;;;
       addToLog (Js.nl ++ "🎉 All enemies defeated! VICTORY!") ;;;
       ret {| ended := true; winners := Some Players;
              reason := Some "All enemies defeated" |}) m
    else
      ret {| ended := false; winners := None; reason := None |} m.

Definition getState : Mgr CombatState := get_state.

Definition getLog : Mgr (list string) := s <- get_state ;; ret (combatLog s).

Definition endCombat : Mgr unit :=
  modify_state (set_isActive false) ;;;
  addToLog (Js.nl ++ "⚔️  COMBAT ENDED").

(** *** The manager as a machine driven by method calls

    One constructor per public method, [getSummary] excepted: it formats
    what [getActiveCombatants] and the state already give and writes
    nothing. *)

Inductive Call : Type :=
| StartCombat (roster : list Ref)
| GetCurrentCombatant
| GetActiveCombatants
| GetCombatant (key : string)
| ProcessAttack (actorId targetId : string) (attackBonus : Z) (damageRoll : DamageRoll)
| ApplyDamage (targetId : string) (amount : Z) (source : string)
| ApplyHealing (targetId : string) (healing : Z) (source : string)
| NextTurn
| CheckCombatEnd
| GetState
| GetLog
| EndCombat.

(** The machine after a call, whatever the call returned. *)
Definition exec (dmAgent : option Narrator) (c : Call) (m : Machine) : Machine :=
  match c with
  | StartCombat roster => snd (startCombat roster m)
  | GetCurrentCombatant => snd (getCurrentCombatant m)
  | GetActiveCombatants => snd (getActiveCombatants m)
  | GetCombatant key => snd (getCombatant key m)
  | ProcessAttack a t b d => snd (processAttack dmAgent a t b d m)
  | ApplyDamage t d src => snd (applyDamage t d src m)
  | ApplyHealing t h src => snd (applyHealing t h src m)
  | NextTurn => snd (nextTurn m)
  | CheckCombatEnd => snd (checkCombatEnd m)
  | GetState => snd (getState m)
  | GetLog => snd (getLog m)
  | EndCombat => snd (endCombat m)
  end.

Definition run (dmAgent : option Narrator) (calls : list Call) (m : Machine) : Machine :=
  fold_left (fun m c => exec dmAgent c m) calls m.

(** A manager right after [new CombatManager(rulesEngine, dmAgent)], in a
    world holding the objects [h] and the random source [g]. *)
Definition fresh (h : Store) (g : RandomSource) : Machine :=
  {| objects := h; state := constructed; rng := g |}.

(** The machines some sequence of method calls leads to. *)
Definition reachable (dmAgent : option Narrator) (m : Machine) : Prop :=
  exists h g calls, m = run dmAgent calls (fresh h g).

(** *** Vocabulary for the statements *)

(** [0 <= hp.current <= hp.max] *)
Definition hp_within (c : Combatant) : Prop :=
  0 <= current (hp c) <= max (hp c).

(** The amount of damage or healing a call hands over is not negative. *)
Definition nonnegative_amount (c : Call) : Prop :=
  match c with
  | ApplyDamage _ amount _ => 0 <= amount
  | ApplyHealing _ healing _ => 0 <= healing
  | _ => True
  end.

Definition restarts (c : Call) : bool :=
  match c with
  | StartCombat _ => true
  | _ => false
  end.

(** The turn index is the position [k] of the roster. *)
Definition turn_at (k : nat) (s : CombatState) : Prop :=
  turnIndex s = Num (Z.of_nat k) /\ (k < List.length (combatants s))%nat.

Definition standing (m : Machine) (r : Ref) : bool :=
  negb (isDefeated (objects m r)).

(** Is a combatant placed after position [k] of the roster still standing? *)
Definition someone_left (m : Machine) (k : nat) : bool :=
  existsb (standing m) (skipn (S k) (combatants (state m))).

(** Two states agree on the schedule: round, turn index and roster. *)
Definition same_schedule (s s' : CombatState) : Prop :=
  round s' = round s /\ turnIndex s' = turnIndex s /\ combatants s' = combatants s.

(** What a call may do to the one combatant it writes to. *)
Inductive touched_by : Call -> (Combatant -> Combatant) -> Prop :=
| touched_attack a t b d dmg :
    0 <= dmg -> touched_by (ProcessAttack a t b d) (wound dmg)
| touched_damage t amount src :
    touched_by (ApplyDamage t amount src) (wound amount)
| touched_healing t healing src :
    touched_by (ApplyHealing t healing src) (heal healing).

(** The footprint of a call that neither restarts combat nor passes the
    turn: the schedule stays, and at most one combatant, not defeated
    before the call, is written to. *)
Definition effect_of (c : Call) (m m' : Machine) : Prop :=
  same_schedule (state m) (state m') /\
  (objects m' = objects m \/
   exists r f,
     touched_by c f /\
     isDefeated (objects m r) = false /\
     objects m' = write r (f (objects m r)) (objects m)).

(** The turn index is on the roster, unless the roster is empty. *)
Definition scheduled (s : CombatState) : Prop :=
  combatants s = [] \/ exists k, turn_at k s.

(** The second log extends the first. *)
Definition log_grows (s s' : CombatState) : Prop :=
  exists suffix, combatLog s' = (combatLog s ++ suffix)%list.

(** A combat that is over stays over, and the log is only added to. *)
Definition stays_down (s s' : CombatState) : Prop :=
  (isActive s = false -> isActive s' = false) /\ log_grows s s'.

(** The defeated flag says exactly that no hit points are left. *)
Definition settled (c : Combatant) : Prop :=
  isDefeated c = true <-> current (hp c) = 0.

(** What [processAttack] answers when it cannot find a combatant. *)
Definition invalid : AttackReport :=
  {| success := false; damage := None; narrative := "Invalid combatants" |}.

(** The machine once the turn index has been moved to position [k]. *)
Definition moved (k : nat) (m : Machine) : Machine :=
  {| objects := objects m;
     state := set_turnIndex (Num (Z.of_nat k)) (state m);
     rng := rng m |}.

(** The machine once the turn index is back at 0 and a new round has been
    opened and logged. *)
Definition wrapped (m : Machine) : Machine :=
  {| objects := objects m;
     state :=
       {| round := round (state m) + 1;
          turnIndex := Num 0;
          combatants := combatants (state m);
          combatLog :=
            combatLog (state m)
              ++ [Js.nl ++ "=== ROUND " ++ Js.show (round (state m) + 1) ++ " ==="];
          isActive := isActive (state m) |};
     rng := rng m |}.

(** The call is a [nextTurn] of a running combat that brings the turn
    index back to the head of the initiative order. *)
Definition completes_cycle (c : Call) (m : Machine) : bool :=
  match c with
  | NextTurn => isActive (state m) && is_zero (turnIndex (state (snd (nextTurn m))))
  | _ => false
  end.

(** How many calls of the sequence complete a cycle. *)
Fixpoint cycles (dmAgent : option Narrator) (calls : list Call) (m : Machine) : Z :=
  match calls with
  | [] => 0
  | c :: rest =>
      (if completes_cycle c m then 1 else 0) + cycles dmAgent rest (exec dmAgent c m)
  end.

End CombatManager.

(** ** Enemy policy *)

Module EnemyAI.

Import CombatManager.

Inductive Action : Type := Attack | Defend | Pass.

Record AIDecision : Type := {
  action : Action;
  targetId : option string;
  reasoning : string
}.

(** [c.hp.current / c.hp.max] *)
Definition percent (c : Combatant) : Js.quotient :=
  Js.div (current (hp c)) (max (hp c)).

(** The callback of [reduce]. *)
Definition weaker (weakest cur : Combatant) : Combatant :=
  if Js.lt (percent cur) (percent weakest) then cur else weakest.

(** The policy only reads the combatants it is given, so it is modelled on
    their values.  [&&] does not evaluate [Math.random()] unless the enemy
    is below a quarter of its hit points.  The threshold [0.3] is taken as
    the exact rational. *)
Definition decideAction (enemy : Combatant) (allCombatants : list Combatant)
  : Rand AIDecision :=
  let playerTargets :=
    filter (fun c => isPlayer c && negb (isDefeated c)) allCombatants in
  match playerTargets with
  | [] => ret {| action := Pass; targetId := None; reasoning := "No valid targets" |}
  | first :: rest =>
      let weakestPlayer := fold_left weaker rest first in
      let enemyHPPercent := percent enemy in
      defensive <- (if Js.lt enemyHPPercent (Js.Fin (1 # 4))
                    then r <- random ;; ret (Js.Qltb r (3 # 10))
                    else ret false) ;;
      if defensive then
        ret {| action := Defend; targetId := None;
               reasoning := name enemy ++ " is low on HP and takes defensive stance" |}
      else
        ret {| action := Attack; targetId := Some (id weakestPlayer);
               reasoning := name enemy ++ " attacks " ++ name weakestPlayer
                              ++ " (weakest target)" |}
  end.

(** *** What an enemy attacks with *)

Definition getAttackBonus (enemy : Combatant) : Z :=
  let name := Js.toLowerCase (name enemy) in
  if Js.includes name "goblin" then 2
  else if Js.includes name "orc" then 4
  else if Js.includes name "skeleton" then 1
  else if Js.includes name "zombie" then 1
  else if Js.includes name "ogre" then 6
  else if Js.includes name "dragon" then 10
  else 3.

Definition getDamageRoll (enemy : Combatant) : DamageRoll :=
  let name := Js.toLowerCase (name enemy) in
  if Js.includes name "goblin" then {| dice := 1; sides := 6; bonus := 0 |}
  else if Js.includes name "orc" then {| dice := 1; sides := 8; bonus := 2 |}
  else if Js.includes name "skeleton" then {| dice := 1; sides := 6; bonus := 0 |}
  else if Js.includes name "zombie" then {| dice := 1; sides := 6; bonus := 1 |}
  else if Js.includes name "ogre" then {| dice := 2; sides := 8; bonus := 4 |}
  else if Js.includes name "dragon" then {| dice := 3; sides := 10; bonus := 6 |}
  else {| dice := 1; sides := 6; bonus := 1 |}.

(** *** Vocabulary for the statements *)

(** The exact quotient [hp.current / hp.max]. *)
Definition ratio (c : Combatant) : Q :=
  inject_Z (current (hp c)) / inject_Z (max (hp c)).

(** A player-side combatant that is not defeated. *)
Definition is_target (c : Combatant) : bool := isPlayer c && negb (isDefeated c).

(** [hp.max > 0], as the data model demands. *)
Definition positive_max (c : Combatant) : Prop := 0 < max (hp c).

(** An ASCII letter. *)
Definition letter (c : Ascii.ascii) : bool :=
  let n := Ascii.nat_of_ascii c in
  ((Nat.leb 65 n && Nat.leb n 90) || (Nat.leb 97 n && Nat.leb n 122))%bool.

(** An ASCII character that is not a letter: a digit, a space, a sign. *)
Definition plain (c : Ascii.ascii) : bool :=
  (Nat.ltb (Ascii.nat_of_ascii c) 128 && negb (letter c))%bool.

Fixpoint every (p : Ascii.ascii -> bool) (s : string) : bool :=
  match s with
  | EmptyString => true
  | String c rest => (p c && every p rest)%bool
  end.

(** What an enemy attacks with, and a row of the table it is read from. *)
Definition stats (c : Combatant) : Z * DamageRoll :=
  (getAttackBonus c, getDamageRoll c).

Definition row (attackBonus dice' sides' bonus' : Z) : Z * DamageRoll :=
  (attackBonus, {| dice := dice'; sides := sides'; bonus := bonus' |}).

End EnemyAI.

(** ** The game that drives the manager *)

Module Driver.
Import CombatManager.

(** [enemyTurn] of the command-line game that drives the manager through
    [processAttack], as far as the manager, the combatants and the random
    source are concerned.  Its writes to the terminal, the pause and the copy
    of the target's hit points into its character sheet touch none of them
    and are left out. *)
Definition enemyTurn (dmAgent : option Narrator) (combatant : Ref) : Mgr (Promise unit) :=
  self <- deref combatant ;;
  active <- getActiveCombatants ;;
  seen <- (fun m => (map (objects m) active, m)) ;;
  decision <- draw (EnemyAI.decideAction self seen) ;;
  match EnemyAI.action decision, EnemyAI.targetId decision with
  | EnemyAI.Attack, Some target =>
      if String.eqb target EmptyString then ret (Resolved tt)
      else
        let attackBonus := EnemyAI.getAttackBonus self in
        let damageRoll := EnemyAI.getDamageRoll self in
        result <- processAttack dmAgent (id self) target attackBonus damageRoll ;;
        match result with
        | Resolved _ => ret (Resolved tt)
        | Rejected => ret Rejected
        end
  | _, _ => ret (Resolved tt)
  end.

(** No two combatants of the roster share an id. *)
Definition distinct_ids (m : Machine) : Prop :=
  forall r1 r2,
    In r1 (combatants (state m)) -> In r2 (combatants (state m)) ->
    id (objects m r1) = id (objects m r2) -> objects m r1 = objects m r2.

End Driver.

(** ** Concrete encounters

    Three combatants and the machines a few calls lead to; the statements
    below are tried on them. *)

Module Scenario.

Import CombatManager.

Definition aria : Combatant :=
  {| id := "aria"; name := "Aria"; initiative := 18;
     hp := {| current := 10; max := 10 |}; ac := 15;
     isPlayer := true; isDefeated := false |}.

Definition goblin : Combatant :=
  {| id := "goblin"; name := "Goblin 1"; initiative := 9;
     hp := {| current := 6; max := 6 |}; ac := 15;
     isPlayer := false; isDefeated := false |}.

Definition borin : Combatant :=
  {| id := "borin"; name := "Borin"; initiative := 3;
     hp := {| current := 12; max := 12 |}; ac := 16;
     isPlayer := true; isDefeated := false |}.

Definition party : Store :=
  fun r => match r with
           | O => aria
           | S O => goblin
           | _ => borin
           end.

(** The text [generateCombatNarrative] falls back to when the language
    model cannot be reached; [damage] is left out when it is [0] or absent. *)
Definition fallbackNarrative : Narrator :=
  fun actorName actionType targetName hit dmg =>
    if hit then
      actorName ++ "'s " ++ actionType ++ " strikes " ++ targetName
        ++ match dmg with
           | Some d => if d =? 0 then EmptyString else " for " ++ Js.show d ++ " damage"
           | None => EmptyString
           end
        ++ "!"
    else actorName ++ "'s " ++ actionType ++ " misses " ++ targetName ++ ".".

Definition dm : option Narrator := Some fallbackNarrative.

(** Aria against the goblin; the random source makes the d20 show 15 and
    the d8 show 8. *)
Definition duel : Machine :=
  run dm [StartCombat [1; 0]%nat] (fresh party (forced [14 # 20; 7 # 8])).

Definition strike : Call :=
  ProcessAttack "aria" "goblin" 6 {| dice := 1; sides := 8; bonus := 3 |}.

(** The duel called off before a blow was struck. *)
Definition calledOff : Machine := run dm [EndCombat] duel.

(** The duel after Aria's blow has felled the goblin. *)
Definition won : Machine := run dm [strike] duel.

(** All three fight; the goblin, second to act, fells Aria (a natural 20,
    then 2d8+4 with both dice showing 8), and the turn passes to Borin. *)
Definition skirmish : Machine :=
  run dm
    [StartCombat [2; 1; 0]%nat;
     NextTurn;
     ProcessAttack "goblin" "aria" 2 {| dice := 2; sides := 8; bonus := 4 |};
     CheckCombatEnd;
     NextTurn]
    (fresh party (forced [19 # 20; 7 # 8; 7 # 8])).

(** Amounts of the wrong sign handed to the manager. *)
Definition curse : Call := ApplyHealing "aria" (-20) "curse".
Definition boon : Call := ApplyDamage "aria" (-5) "boon".

(** An afternoon of ordinary calls. *)
Definition routine : list Call :=
  [strike; ApplyHealing "aria" 5 "potion"; ApplyDamage "aria" 3 "fire";
   ApplyDamage "goblin" 40 "rockfall"; NextTurn; CheckCombatEnd].

(** The goblin at one hit point out of six, facing Aria at half and Borin
    at a third of their hit points. *)
Definition cornered : Combatant := set_current 1 goblin.
Definition field : list Combatant :=
  [set_current 5 aria; cornered; set_current 4 borin].

End Scenario.

(** * Properties *)

(** ** Rules engine *)

Lemma Qltb_lt (x y : Q) : Js.Qltb x y = true <-> (x < y)%Q.
Proof.
  unfold Js.Qltb. rewrite negb_true_iff. split; intro H.
  - apply Qnot_le_lt. intro Hle. apply Qle_bool_iff in Hle. congruence.
  - destruct (Qle_bool y x) eqn:E; [|reflexivity].
    apply Qle_bool_iff in E. exfalso. exact (Qlt_not_le _ _ H E).
Qed.

(** Comparing an integer with half of another one needs no rationals. *)
Lemma Qltb_half (a b : Z) :
  Js.Qltb (inject_Z a) (inject_Z b / 2) = (2 * a <? b).
Proof.
  destruct (Z.ltb_spec (2 * a) b) as [E|E];
    unfold Js.Qltb, Qle_bool, Qdiv, Qmult, Qinv, inject_Z; cbn.
  - apply negb_true_iff, Z.leb_gt. lia.
  - apply negb_false_iff, Z.leb_le. lia.
Qed.

(** A die with at least one side shows a face between 1 and its number of
    sides, whatever number in [0, 1) it is rolled with. *)
Lemma die_range (sides : Z) (r : Q) :
  (0 <= r)%Q -> (r < 1)%Q -> 1 <= sides ->
  1 <= RulesEngine.die sides r <= sides.
Proof.
  intros H0 H1 Hs. unfold RulesEngine.die.
  assert (Hpos : (0 < inject_Z sides)%Q).
  { change 0%Q with (inject_Z 0). rewrite <- Zlt_Qlt. lia. }
  assert (Hlo : 0 <= Qfloor (r * inject_Z sides)).
  { change 0 with (Qfloor 0). apply Qfloor_resp_le.
    apply Qmult_le_0_compat; [exact H0 | apply Qlt_le_weak, Hpos]. }
  assert (Hhi : Qfloor (r * inject_Z sides) < sides).
  { rewrite Zlt_Qlt. eapply Qle_lt_trans; [apply Qfloor_le|].
    setoid_replace (inject_Z sides) with (1 * inject_Z sides)%Q at 2 by ring.
    apply Qmult_lt_compat_r; assumption. }
  lia.
Qed.

Lemma skip_zero (g : RandomSource) : RulesEngine.skip 0 g = g.
Proof. destruct g as [f c]. unfold RulesEngine.skip. cbn. now rewrite Nat.add_0_r. Qed.

Lemma skip_succ (n : nat) (g : RandomSource) :
  RulesEngine.skip n (snd (random g)) = RulesEngine.skip (S n) g.
Proof. unfold RulesEngine.skip. cbn. f_equal. lia. Qed.

Lemma skip_skip (n k : nat) (g : RandomSource) :
  RulesEngine.skip k (RulesEngine.skip n g) = RulesEngine.skip (n + k) g.
Proof. unfold RulesEngine.skip. cbn. f_equal. lia. Qed.

(** The loop of [rollDice] adds up the faces of the next [n] draws. *)
Lemma rollDice_loop_sum (n : nat) (sides : Z) :
  forall (acc : Z) (g : RandomSource),
    RulesEngine.rollDice_loop n sides acc g =
    (acc + RulesEngine.sum (RulesEngine.faces g sides (cursor g) n),
     RulesEngine.skip n g).
Proof.
  induction n as [|n IH]; intros acc g.
  - cbn. unfold ret. now rewrite skip_zero, Z.add_0_r.
  - cbn [RulesEngine.rollDice_loop]. unfold bind at 1.
    change (random g) with (sample g (cursor g), snd (random g)).
    cbv beta iota. rewrite IH, skip_succ.
    change (RulesEngine.faces g sides (cursor g) (S n))
      with (RulesEngine.die sides (sample g (cursor g))
              :: RulesEngine.faces (snd (random g)) sides (cursor (snd (random g))) n).
    unfold RulesEngine.sum. cbn [fold_right]. f_equal. lia.
Qed.

Lemma faces_range (g : RandomSource) (sides : Z) (from n : nat) :
  unit_draws g -> 1 <= sides ->
  Forall (fun f => 1 <= f <= sides) (RulesEngine.faces g sides from n).
Proof.
  intros Hg Hs. unfold RulesEngine.faces. apply Forall_map, Forall_forall.
  intros i _. destruct (Hg i). now apply die_range.
Qed.

(** C5: [applyDamage] floors the new hit points at -10, classifies them as
    dead, dying, disabled, wounded or healthy in that order of priority, and
    never yields more hit points for more damage; the two boundary cases of
    the specification come out as [Disabled] and as -10 with [Dead].  This
    holds for every [maxHP], positive or not. *)
Theorem applyDamage_classifies (currentHP maxHP d1 d2 : Z) (Hle : d1 <= d2) :
  let r := RulesEngine.applyDamage currentHP maxHP d1 in
  let hp' := RulesEngine.newHP r in
  hp' = Z.max (-10) (currentHP - d1) /\
  RulesEngine.status r =
    (if hp' <=? -10 then RulesEngine.Dead
     else if hp' <? 0 then RulesEngine.Dying
     else if hp' =? 0 then RulesEngine.Disabled
     else if 2 * hp' <? maxHP then RulesEngine.Wounded
     else RulesEngine.Healthy) /\
  RulesEngine.newHP (RulesEngine.applyDamage currentHP maxHP d2) <= hp' /\
  RulesEngine.status (RulesEngine.applyDamage 0 10 0) = RulesEngine.Disabled /\
  RulesEngine.newHP (RulesEngine.applyDamage (-9) 10 1) = -10 /\
  RulesEngine.status (RulesEngine.applyDamage (-9) 10 1) = RulesEngine.Dead.
Proof.
  assert (Hnew : forall d, RulesEngine.newHP (RulesEngine.applyDamage currentHP maxHP d)
                           = Z.max (-10) (currentHP - d)).
  { intro d. unfold RulesEngine.applyDamage.
    repeat match goal with |- context [if ?b then _ else _] => destruct b end;
      reflexivity. }
  cbv zeta. rewrite !Hnew. repeat split; try reflexivity; try lia.
  unfold RulesEngine.applyDamage. rewrite Qltb_half.
  repeat match goal with |- context [if ?b then _ else _] => destruct b end;
    reflexivity.
Qed.

Lemma applyDamage_classifies_witness :
  3 <= 5 /\
  RulesEngine.newHP (RulesEngine.applyDamage 8 20 5)
    <= RulesEngine.newHP (RulesEngine.applyDamage 8 20 3).
Proof.
  split; [lia|].
  destruct (applyDamage_classifies 8 20 3 5 ltac:(lia)) as (_ & _ & H & _).
  exact H.
Defined.

Lemma resolveDamage_unfold (g : RandomSource) (c s b : Z) (crit : bool) :
  RulesEngine.resolveDamage c s b crit g =
  (Z.max 0 (b + RulesEngine.sum (RulesEngine.faces g s (cursor g) (Z.to_nat c))
            + (if crit
               then RulesEngine.sum
                      (RulesEngine.faces g s (cursor g + Z.to_nat c) (Z.to_nat c))
               else 0)),
   RulesEngine.skip (if crit then Z.to_nat c + Z.to_nat c else Z.to_nat c) g).
Proof.
  unfold RulesEngine.resolveDamage, RulesEngine.rollDice.
  unfold bind at 1. rewrite rollDice_loop_sum. destruct crit.
  - unfold bind, ret. rewrite rollDice_loop_sum, skip_skip. reflexivity.
  - unfold bind, ret. f_equal. lia.
Qed.

Lemma resolveDamage_nonneg (c s b : Z) (crit : bool) (g : RandomSource) :
  0 <= fst (RulesEngine.resolveDamage c s b crit g).
Proof. rewrite resolveDamage_unfold. cbn [fst]. lia. Qed.

(** C6: [resolveDamage] adds the bonus to the faces of [diceCount] dice, each
    between 1 and [diceSides]; a critical hit adds the faces of a second roll
    of the same dice and leaves the bonus alone; the result is never
    negative; rolling 1d8+3 critically with both dice showing 8 gives 19. *)
Theorem resolveDamage_sums_dice (g : RandomSource) (diceCount diceSides bonus : Z)
  (isCritical : bool) (Hdraws : unit_draws g) (Hsides : 1 <= diceSides) :
  let n := Z.to_nat diceCount in
  let first := RulesEngine.faces g diceSides (cursor g) n in
  let second := RulesEngine.faces g diceSides (cursor g + n) n in
  Forall (fun f => 1 <= f <= diceSides) (first ++ second) /\
  RulesEngine.resolveDamage diceCount diceSides bonus isCritical g =
    (Z.max 0 (bonus + RulesEngine.sum first
              + (if isCritical then RulesEngine.sum second else 0)),
     RulesEngine.skip (if isCritical then n + n else n) g) /\
  0 <= fst (RulesEngine.resolveDamage diceCount diceSides bonus isCritical g) /\
  (RulesEngine.faces g 8 (cursor g) 2 = [8; 8] ->
   fst (RulesEngine.resolveDamage 1 8 3 true g) = 19).
Proof.
  pose proof (resolveDamage_unfold g) as Heq.
  cbv zeta. split; [|split; [|split]].
  - apply Forall_app; split; now apply faces_range.
  - apply Heq.
  - rewrite Heq. cbn [fst]. lia.
  - intro H8. rewrite Heq. cbn [fst]. change (Z.to_nat 1) with 1%nat.
    rewrite Nat.add_1_r. unfold RulesEngine.faces, RulesEngine.sum in *.
    cbn [map seq fold_right] in *. injection H8 as H1 H2. now rewrite H1, H2.
Qed.

Lemma resolveDamage_sums_dice_witness :
  unit_draws (forced [7 # 8; 7 # 8]) /\ 1 <= 8 /\
  RulesEngine.resolveDamage 1 8 3 true (forced [7 # 8; 7 # 8]) =
    (19, RulesEngine.skip 2 (forced [7 # 8; 7 # 8])).
Proof.
  assert (Hd : unit_draws (forced [7 # 8; 7 # 8])).
  { intro i. cbn. destruct i as [|[|[|i]]]; cbn; split; reflexivity || discriminate. }
  split; [exact Hd|]. split; [lia|].
  destruct (resolveDamage_sums_dice (forced [7 # 8; 7 # 8]) 1 8 3 true Hd ltac:(lia))
    as (_ & H & _).
  exact H.
Defined.

(** ** Combat manager: initiative order *)

Section SortByKey.

Context {A : Type} (key : A -> Z).

(** The comparator [(a, b) => key(b) - key(a)] of a descending sort. *)
Local Notation "'descending'" := (fun a b : A => key b - key a).
Local Notation "'before'" := (fun a b : A => key a >= key b).

Lemma insert_permutes (x : A) (l : list A) :
  Permutation (x :: l) (CombatManager.insert descending x l).
Proof.
  induction l as [|y l IH]; cbn; [reflexivity|].
  destruct (key y - key x <=? 0); [reflexivity|].
  rewrite perm_swap. now apply perm_skip.
Qed.

Lemma sort_permutes (l : list A) :
  Permutation l (CombatManager.sort descending l).
Proof.
  induction l as [|x l IH]; cbn; [constructor|].
  etransitivity; [apply perm_skip, IH | apply insert_permutes].
Qed.

Lemma insert_keeps_order (x : A) (l : list A) :
  StronglySorted before l ->
  StronglySorted before (CombatManager.insert descending x l).
Proof.
  induction 1 as [|y l Hl IH Hy]; cbn.
  - repeat constructor.
  - destruct (Z.leb_spec (key y - key x) 0) as [Hxy|Hxy].
    + constructor; [now constructor|].
      constructor; [lia|].
      eapply Forall_impl; [|exact Hy]. cbn. intros; lia.
    + constructor; [exact IH|].
      eapply Permutation_Forall; [apply insert_permutes|].
      constructor; [lia | exact Hy].
Qed.

Lemma sort_orders (l : list A) :
  StronglySorted before (CombatManager.sort descending l).
Proof.
  induction l as [|x l IH]; cbn; [constructor | now apply insert_keeps_order].
Qed.

(** Inserting [x] never moves it behind an element with the same key. *)
Lemma insert_keeps_ties (v : Z) (x : A) (l : list A) :
  filter (fun a => key a =? v) (CombatManager.insert descending x l) =
  filter (fun a => key a =? v) (x :: l).
Proof.
  induction l as [|y l IH]; cbn; [reflexivity|].
  destruct (Z.leb_spec (key y - key x) 0) as [Hxy|Hxy]; [reflexivity|].
  cbn. rewrite IH. cbn.
  destruct (Z.eqb_spec (key x) v), (Z.eqb_spec (key y) v); try reflexivity. lia.
Qed.

Lemma sort_keeps_ties (v : Z) (l : list A) :
  filter (fun a => key a =? v) (CombatManager.sort descending l) =
  filter (fun a => key a =? v) l.
Proof.
  unfold CombatManager.sort.
  induction l as [|x l IH]; cbn [fold_right]; [reflexivity|].
  rewrite insert_keeps_ties. cbn. now rewrite IH.
Qed.

End SortByKey.

(** C4: [startCombat] stores the roster sorted by descending initiative,
    combatants of equal initiative in the order they were given, and sets
    round 1, turn index 0, the active flag and a log made of the opening line
    and the initiative order; it writes to no combatant. *)
Theorem startCombat_orders_by_initiative
  (roster : list CombatManager.Ref) (m : CombatManager.Machine) :
  let m' := snd (CombatManager.startCombat roster m) in
  let s' := CombatManager.state m' in
  let order := CombatManager.combatants s' in
  let init r := CombatManager.initiative (CombatManager.objects m r) in
  Permutation roster order /\
  StronglySorted (fun a b => init a >= init b) order /\
  (forall v, filter (fun r => init r =? v) order = filter (fun r => init r =? v) roster) /\
  CombatManager.round s' = 1 /\
  CombatManager.turnIndex s' = CombatManager.Num 0 /\
  CombatManager.isActive s' = true /\
  CombatManager.combatLog s' =
    ["⚔️  COMBAT BEGINS!";
     "Initiative order: "
       ++ Js.join " → " (map (fun r => CombatManager.name (CombatManager.objects m r)) order)]
  /\
  CombatManager.objects m' = CombatManager.objects m /\
  CombatManager.rng m' = CombatManager.rng m.
Proof.
  cbn. repeat split.
  - apply (sort_permutes (fun r => CombatManager.initiative (CombatManager.objects m r))).
  - apply (sort_orders (fun r => CombatManager.initiative (CombatManager.objects m r))).
  - intro v.
    apply (sort_keeps_ties (fun r => CombatManager.initiative (CombatManager.objects m r))).
Qed.

(** ** Combat manager: queries *)

Ltac run_mgr :=
  unfold CombatManager.addToLog, CombatManager.modify_state, CombatManager.get_state,
    CombatManager.put_state, CombatManager.deref, CombatManager.assign,
    CombatManager.draw, CombatManager.getCombatant, bind, ret in *;
  cbv beta iota zeta in *;
  cbn [fst snd CombatManager.objects CombatManager.state CombatManager.rng
       CombatManager.round CombatManager.turnIndex CombatManager.combatants
       CombatManager.combatLog CombatManager.isActive
       CombatManager.set_isActive CombatManager.set_round
       CombatManager.set_turnIndex] in *.

(** [checkCombatEnd] writes the active flag and the log, nothing else. *)
Lemma checkCombatEnd_frame (m : CombatManager.Machine) :
  let m' := snd (CombatManager.checkCombatEnd m) in
  CombatManager.objects m' = CombatManager.objects m /\
  CombatManager.rng m' = CombatManager.rng m /\
  CombatManager.round (CombatManager.state m') = CombatManager.round (CombatManager.state m) /\
  CombatManager.turnIndex (CombatManager.state m')
    = CombatManager.turnIndex (CombatManager.state m) /\
  CombatManager.combatants (CombatManager.state m')
    = CombatManager.combatants (CombatManager.state m).
Proof.
  unfold CombatManager.checkCombatEnd.
  repeat match goal with |- context [if ?b then _ else _] => destruct b end;
    run_mgr; repeat split.
Qed.

(** C3, as the code has it: [getCurrentCombatant] and [getActiveCombatants] leave
    the machine as it is.  [checkCombatEnd] leaves it as it is when it
    answers that combat goes on; when it answers that combat has ended it
    clears the active flag and appends one line to the log, and touches
    nothing else.  Asking any of the three again gives the same answer. *)
Theorem queries_frame (m : CombatManager.Machine) :
  snd (CombatManager.getCurrentCombatant m) = m /\
  snd (CombatManager.getActiveCombatants m) = m /\
  (let (r, m') := CombatManager.checkCombatEnd m in
   CombatManager.objects m' = CombatManager.objects m /\
   CombatManager.rng m' = CombatManager.rng m /\
   CombatManager.round (CombatManager.state m')
     = CombatManager.round (CombatManager.state m) /\
   CombatManager.turnIndex (CombatManager.state m')
     = CombatManager.turnIndex (CombatManager.state m) /\
   CombatManager.combatants (CombatManager.state m')
     = CombatManager.combatants (CombatManager.state m) /\
   (CombatManager.ended r = false -> m' = m) /\
   (CombatManager.ended r = true ->
    CombatManager.isActive (CombatManager.state m') = false /\
    exists line,
      CombatManager.combatLog (CombatManager.state m')
        = (CombatManager.combatLog (CombatManager.state m) ++ [line])%list) /\
   fst (CombatManager.checkCombatEnd m') = r) /\
  fst (CombatManager.getCurrentCombatant (snd (CombatManager.getCurrentCombatant m)))
    = fst (CombatManager.getCurrentCombatant m) /\
  fst (CombatManager.getActiveCombatants (snd (CombatManager.getActiveCombatants m)))
    = fst (CombatManager.getActiveCombatants m).
Proof.
  assert (Hcur : snd (CombatManager.getCurrentCombatant m) = m).
  { unfold CombatManager.getCurrentCombatant. run_mgr.
    now destruct (negb _ || _). }
  assert (Hact : snd (CombatManager.getActiveCombatants m) = m) by reflexivity.
  split; [exact Hcur|]. split; [exact Hact|]. split.
  - pose proof (checkCombatEnd_frame m) as Hfr. cbv zeta in Hfr.
    destruct (CombatManager.checkCombatEnd m) as [r m'] eqn:E. cbn [snd] in Hfr.
    destruct Hfr as (Ho & Hg & Hr & Ht & Hc). repeat (split; [assumption|]).
    revert E. unfold CombatManager.checkCombatEnd.
    match goal with |- context [if ?b then _ else _] => destruct b eqn:Ep end;
      [|match goal with |- context [if ?b then _ else _] => destruct b eqn:Ee end];
      run_mgr; intro E; injection E as <- <-; cbn.
    + split; [discriminate|]. split; [intros _; split; [reflexivity|eauto]|].
      now rewrite Ep.
    + split; [discriminate|]. split; [intros _; split; [reflexivity|eauto]|].
      now rewrite Ep, Ee.
    + split; [reflexivity|]. split; [discriminate|]. now rewrite Ep, Ee.
  - now rewrite Hcur, Hact.
Qed.

(** C3 as stated fails: on the duel Aria has won, [checkCombatEnd] changes
    the state it was asked about. *)
Lemma checkCombatEnd_writes :
  CombatManager.state (snd (CombatManager.checkCombatEnd Scenario.won))
    <> CombatManager.state Scenario.won.
Proof. intro H. apply (f_equal CombatManager.isActive) in H. discriminate H. Qed.

(** ** Combat manager: turn order *)

Lemma advance_next (k len : nat) :
  (k < len)%nat ->
  CombatManager.advance (CombatManager.Num (Z.of_nat k)) len =
  CombatManager.Num (if Nat.eqb (S k) len then 0 else Z.of_nat (S k)).
Proof.
  intro Hk. unfold CombatManager.advance.
  destruct (Nat.eqb_spec len 0) as [->|_]; [lia|].
  f_equal. destruct (Nat.eqb_spec (S k) len) as [<-|Hne].
  - replace (Z.of_nat k + 1) with (Z.of_nat (S k)) by lia. apply Z.rem_same. lia.
  - rewrite Z.rem_small; lia.
Qed.

Lemma skipn_nth_error {A} (l : list A) (k : nat) (x : A) :
  nth_error l k = Some x -> skipn k l = x :: skipn (S k) l.
Proof.
  revert l; induction k as [|k IH]; intros [|y l] H; try discriminate.
  - now injection H as ->.
  - cbn in *. now apply IH.
Qed.

Lemma at_index_nat {A} (l : list A) (n : nat) :
  CombatManager.at_index l (CombatManager.Num (Z.of_nat n)) = nth_error l n.
Proof.
  unfold CombatManager.at_index.
  destruct (Z.ltb_spec (Z.of_nat n) 0); [lia|]. now rewrite Nat2Z.id.
Qed.

Lemma nextTurn_loop_step (more : nat) (m : CombatManager.Machine) (k : nat) :
  CombatManager.isActive (CombatManager.state m) = true ->
  CombatManager.turn_at k (CombatManager.state m) ->
  let roster := CombatManager.combatants (CombatManager.state m) in
  let carry_on :=
    match more with
    | O => ({| CombatManager.newRound := false; CombatManager.currentCombatant := None |},
            CombatManager.moved (S k) m)
    | S more' => CombatManager.nextTurn_loop more' (CombatManager.moved (S k) m)
    end in
  CombatManager.nextTurn_loop more m =
    if Nat.eqb (S k) (List.length roster) then
      ({| CombatManager.newRound := true;
          CombatManager.currentCombatant := nth_error roster 0 |},
       CombatManager.wrapped m)
    else
      match nth_error roster (S k) with
      | Some r =>
          if CombatManager.standing m r
          then ({| CombatManager.newRound := false;
                   CombatManager.currentCombatant := Some r |},
                CombatManager.moved (S k) m)
          else carry_on
      | None => carry_on
      end.
Proof.
  intros Hact [Hidx Hk]. cbv zeta.
  assert (Hlen : Nat.eqb (List.length (CombatManager.combatants (CombatManager.state m))) 0
                 = false) by (apply Nat.eqb_neq; lia).
  unfold CombatManager.wrapped, CombatManager.moved, CombatManager.standing.
  destruct more; cbn [CombatManager.nextTurn_loop];
    unfold CombatManager.getCurrentCombatant; run_mgr;
    rewrite Hidx, (advance_next _ _ Hk);
    destruct (Nat.eqb (S k) _);
    cbn [CombatManager.is_zero CombatManager.set_turnIndex CombatManager.state
         CombatManager.objects CombatManager.isActive CombatManager.combatants
         CombatManager.turnIndex CombatManager.round CombatManager.combatLog
         CombatManager.rng];
    rewrite ?Hact, ?Hlen; cbn [negb orb Z.eqb];
    try reflexivity.
  all: replace (Z.of_nat (S k) =? 0) with false by (symmetry; apply Z.eqb_neq; lia).
  all: cbv beta iota;
    cbn [CombatManager.set_turnIndex CombatManager.state
         CombatManager.objects CombatManager.isActive CombatManager.combatants
         CombatManager.turnIndex CombatManager.round CombatManager.combatLog
         CombatManager.rng];
    rewrite Hact, Hlen, at_index_nat; cbn [negb orb].
  all: destruct (nth_error _ (S k)) as [r|]; [|reflexivity].
  all: cbv beta iota; cbn [CombatManager.objects].
  all: now destruct (CombatManager.isDefeated (CombatManager.objects m r)).
Qed.

Lemma someone_left_last (m : CombatManager.Machine) (k : nat) :
  S k = List.length (CombatManager.combatants (CombatManager.state m)) ->
  CombatManager.someone_left m k = false.
Proof.
  intro H. unfold CombatManager.someone_left. now rewrite H, skipn_all.
Qed.

Lemma someone_left_next (m : CombatManager.Machine) (k : nat) (r : CombatManager.Ref) :
  nth_error (CombatManager.combatants (CombatManager.state m)) (S k) = Some r ->
  CombatManager.someone_left m k =
  CombatManager.standing m r || CombatManager.someone_left m (S k).
Proof.
  intro H. unfold CombatManager.someone_left.
  now rewrite (skipn_nth_error _ _ _ H).
Qed.

Lemma nextTurn_loop_spec (more : nat) :
  forall (m : CombatManager.Machine) (k : nat),
    CombatManager.isActive (CombatManager.state m) = true ->
    CombatManager.turn_at k (CombatManager.state m) ->
    (List.length (CombatManager.combatants (CombatManager.state m)) - S k <= more)%nat ->
    if CombatManager.someone_left m k then
      exists k' r,
        (k < k')%nat /\
        nth_error (CombatManager.combatants (CombatManager.state m)) k' = Some r /\
        CombatManager.standing m r = true /\
        (forall j r', (k < j < k')%nat ->
           nth_error (CombatManager.combatants (CombatManager.state m)) j = Some r' ->
           CombatManager.standing m r' = false) /\
        CombatManager.nextTurn_loop more m =
          ({| CombatManager.newRound := false; CombatManager.currentCombatant := Some r |},
           CombatManager.moved k' m)
    else
      CombatManager.nextTurn_loop more m =
        ({| CombatManager.newRound := true;
            CombatManager.currentCombatant :=
              nth_error (CombatManager.combatants (CombatManager.state m)) 0 |},
         CombatManager.wrapped m).
Proof.
  induction more as [|more IH]; intros m k Hact Hat Hfuel;
    rewrite (nextTurn_loop_step _ m k Hact Hat); cbv zeta; destruct Hat as [Hidx Hk];
    destruct (Nat.eqb_spec (S k) (List.length (CombatManager.combatants (CombatManager.state m))))
      as [Hlast|Hmid];
    try (rewrite (someone_left_last _ _ Hlast); reflexivity);
    try lia.
  destruct (nth_error (CombatManager.combatants (CombatManager.state m)) (S k))
    as [r|] eqn:Hr; [|apply nth_error_None in Hr; lia].
  rewrite (someone_left_next _ _ _ Hr).
  destruct (CombatManager.standing m r) eqn:Hs; cbn [orb].
  - exists (S k), r. repeat split; try assumption; lia.
  - specialize (IH (CombatManager.moved (S k) m) (S k) Hact).
    assert (Hat' : CombatManager.turn_at (S k) (CombatManager.state (CombatManager.moved (S k) m))).
    { split; [reflexivity|]. cbn. lia. }
    specialize (IH Hat'). cbn [CombatManager.moved CombatManager.state CombatManager.combatants CombatManager.set_turnIndex] in IH.
    specialize (IH ltac:(lia)).
    change (CombatManager.someone_left (CombatManager.moved (S k) m) (S k))
      with (CombatManager.someone_left m (S k)) in IH.
    destruct (CombatManager.someone_left m (S k)).
    + destruct IH as (k' & r' & Hlt & Hnth & Hst & Hbetween & Heq).
      exists k', r'. split; [lia|]. split; [exact Hnth|]. split; [exact Hst|].
      split; [|exact Heq].
      intros j rj Hj Hnj. destruct (Nat.eq_dec j (S k)) as [->|Hne].
      * rewrite Hr in Hnj. injection Hnj as <-. exact Hs.
      * apply (Hbetween j rj); [lia | exact Hnj].
    + exact IH.
Qed.


Lemma nextTurn_inactive (m : CombatManager.Machine) :
  CombatManager.isActive (CombatManager.state m) = false ->
  CombatManager.nextTurn m =
    ({| CombatManager.newRound := false; CombatManager.currentCombatant := None |}, m).
Proof. intro H. unfold CombatManager.nextTurn. run_mgr. now rewrite H. Qed.

Lemma nextTurn_active (m : CombatManager.Machine) :
  CombatManager.isActive (CombatManager.state m) = true ->
  CombatManager.nextTurn m =
    CombatManager.nextTurn_loop
      (Nat.pred (List.length (CombatManager.combatants (CombatManager.state m)))) m.
Proof. intro H. unfold CombatManager.nextTurn. run_mgr. now rewrite H. Qed.

Lemma getCurrentCombatant_pure (m : CombatManager.Machine) :
  snd (CombatManager.getCurrentCombatant m) = m.
Proof.
  unfold CombatManager.getCurrentCombatant. run_mgr. now destruct (negb _ || _).
Qed.

Lemma processAttack_effect (dm : option CombatManager.Narrator) (a t : string) (b : Z)
  (d : CombatManager.DamageRoll) (m : CombatManager.Machine) :
  CombatManager.effect_of (CombatManager.ProcessAttack a t b d) m
    (snd (CombatManager.processAttack dm a t b d m)).
Proof.
  unfold CombatManager.effect_of, CombatManager.same_schedule, CombatManager.processAttack, CombatManager.describe.
  run_mgr.
  destruct (find _ _) as [ra|]; [|cbn; auto 6].
  destruct (find _ _) as [rt|]; [|cbn; auto 6].
  destruct (CombatManager.isDefeated (CombatManager.objects m rt)) eqn:Hdef; [cbn; auto 6|].
  destruct (RulesEngine.resolveAttack _ _ _ _) as [res g1].
  destruct (RulesEngine.success res).
  - pose proof (resolveDamage_nonneg (CombatManager.dice d) (CombatManager.sides d)
                  (CombatManager.bonus d) false g1) as Hnn.
    destruct (RulesEngine.resolveDamage _ _ _ _ _) as [dmg g2]. cbn [fst] in Hnn.
    assert (Htouch : CombatManager.touched_by (CombatManager.ProcessAttack a t b d) (CombatManager.wound dmg))
      by now constructor.
    destruct dm as [narrate|]; run_mgr.
    + match goal with |- context [if ?c then _ else _] => destruct c end; run_mgr;
        (split; [auto|right; eauto 6]).
    + split; [auto|right; eauto 6].
  - destruct dm as [narrate|]; run_mgr; auto 6.
Qed.

Lemma applyDamage_effect (t : string) (amount : Z) (src : string) (m : CombatManager.Machine) :
  CombatManager.effect_of (CombatManager.ApplyDamage t amount src) m
    (snd (CombatManager.applyDamage t amount src m)).
Proof.
  unfold CombatManager.effect_of, CombatManager.same_schedule, CombatManager.applyDamage. run_mgr.
  destruct (find _ _) as [rt|]; [|cbn; auto 6].
  destruct (CombatManager.isDefeated (CombatManager.objects m rt)) eqn:Hdef; [cbn; auto 6|].
  assert (Htouch : CombatManager.touched_by (CombatManager.ApplyDamage t amount src)
                     (CombatManager.wound amount)) by constructor.
  match goal with |- context [if ?c then _ else _] => destruct c end; run_mgr;
    (split; [auto|right; eauto 6]).
Qed.

Lemma applyHealing_effect (t : string) (healing : Z) (src : string) (m : CombatManager.Machine) :
  CombatManager.effect_of (CombatManager.ApplyHealing t healing src) m
    (snd (CombatManager.applyHealing t healing src m)).
Proof.
  unfold CombatManager.effect_of, CombatManager.same_schedule, CombatManager.applyHealing. run_mgr.
  destruct (find _ _) as [rt|]; [|cbn; auto 6].
  destruct (CombatManager.isDefeated (CombatManager.objects m rt)) eqn:Hdef; [cbn; auto 6|].
  assert (Htouch : CombatManager.touched_by (CombatManager.ApplyHealing t healing src) (CombatManager.heal healing))
    by constructor.
  split; [auto|right; exists rt, (CombatManager.heal healing); auto].
Qed.

Lemma exec_effect (dm : option CombatManager.Narrator) (c : CombatManager.Call)
  (m : CombatManager.Machine) :
  CombatManager.restarts c = false -> c <> CombatManager.NextTurn ->
  CombatManager.effect_of c m (CombatManager.exec dm c m).
Proof.
  intros Hre Hnt. destruct c; try discriminate; try congruence; cbn [CombatManager.exec].
  - rewrite getCurrentCombatant_pure. split; [repeat split | now left].
  - split; [repeat split | now left].
  - split; [repeat split | now left].
  - apply processAttack_effect.
  - apply applyDamage_effect.
  - apply applyHealing_effect.
  - pose proof (checkCombatEnd_frame m) as (Ho & _ & Hr & Ht & Hc).
    split; [repeat split; assumption | now left].
  - split; [repeat split | now left].
  - split; [repeat split | now left].
  - split; [repeat split | now left].
Qed.

(** Whatever the state, the loop of [nextTurn] writes to the turn index, the
    round and the log only. *)
Lemma nextTurn_loop_frame (more : nat) :
  forall m : CombatManager.Machine,
    let m' := snd (CombatManager.nextTurn_loop more m) in
    CombatManager.objects m' = CombatManager.objects m /\
    CombatManager.rng m' = CombatManager.rng m /\
    CombatManager.combatants (CombatManager.state m')
      = CombatManager.combatants (CombatManager.state m) /\
    CombatManager.isActive (CombatManager.state m')
      = CombatManager.isActive (CombatManager.state m).
Proof.
  induction more as [|more IH]; intro m; cbv zeta;
    cbn [CombatManager.nextTurn_loop]; unfold CombatManager.getCurrentCombatant; run_mgr.
  all: destruct (CombatManager.is_zero _); run_mgr.
  all: try (destruct (negb _ || _); run_mgr; auto; fail).
  all: destruct (negb _ || _); run_mgr.
  all: try match goal with
           | |- context [CombatManager.at_index ?l ?i] =>
               destruct (CombatManager.at_index l i) as [r|]; run_mgr
           end.
  all: try match goal with
           | |- context [CombatManager.isDefeated ?c] =>
               destruct (CombatManager.isDefeated c)
           end.
  all: cbn [negb]; run_mgr; auto.
  all: match goal with
       | |- context [CombatManager.nextTurn_loop _ ?m1] =>
           destruct (IH m1) as (Ho & Hg & Hc & Ha); run_mgr; auto
       end.
Qed.

Lemma nextTurn_frame (m : CombatManager.Machine) :
  let m' := snd (CombatManager.nextTurn m) in
  CombatManager.objects m' = CombatManager.objects m /\
  CombatManager.rng m' = CombatManager.rng m /\
  CombatManager.combatants (CombatManager.state m')
    = CombatManager.combatants (CombatManager.state m) /\
  CombatManager.isActive (CombatManager.state m')
    = CombatManager.isActive (CombatManager.state m).
Proof.
  destruct (CombatManager.isActive (CombatManager.state m)) eqn:Hact.
  - rewrite (nextTurn_active m Hact). rewrite <- Hact. apply nextTurn_loop_frame.
  - rewrite (nextTurn_inactive m Hact). cbn. auto.
Qed.

Lemma startCombat_objects (roster : list CombatManager.Ref) (m : CombatManager.Machine) :
  CombatManager.objects (snd (CombatManager.startCombat roster m)) = CombatManager.objects m.
Proof. reflexivity. Qed.

(** The turn order a call that passes the turn leaves behind. *)
Lemma nextTurn_spec (m : CombatManager.Machine) (k : nat) :
  CombatManager.isActive (CombatManager.state m) = true ->
  CombatManager.turn_at k (CombatManager.state m) ->
  if CombatManager.someone_left m k then
    exists k' r,
      (k < k')%nat /\
      nth_error (CombatManager.combatants (CombatManager.state m)) k' = Some r /\
      CombatManager.standing m r = true /\
      (forall j r', (k < j < k')%nat ->
         nth_error (CombatManager.combatants (CombatManager.state m)) j = Some r' ->
         CombatManager.standing m r' = false) /\
      CombatManager.nextTurn m =
        ({| CombatManager.newRound := false; CombatManager.currentCombatant := Some r |},
         CombatManager.moved k' m)
  else
    CombatManager.nextTurn m =
      ({| CombatManager.newRound := true;
          CombatManager.currentCombatant :=
            nth_error (CombatManager.combatants (CombatManager.state m)) 0 |},
       CombatManager.wrapped m).
Proof.
  intros Hact Hat. rewrite (nextTurn_active m Hact).
  apply nextTurn_loop_spec; try assumption. destruct Hat. lia.
Qed.

(** C1, on the code: in the skirmish Aria, first in the initiative order,
    has been defeated, the goblin and Borin still stand, and it is Borin's
    turn, the last of the round.  [nextTurn] opens round 2 and hands the turn
    to Aria: the branch that wraps around returns before the check that
    skips the defeated. *)
Theorem nextTurn_wraps_onto_defeated :
  CombatManager.reachable Scenario.dm Scenario.skirmish /\
  CombatManager.isActive (CombatManager.state Scenario.skirmish) = true /\
  fst (CombatManager.getActiveCombatants Scenario.skirmish) = [1; 2]%nat /\
  fst (CombatManager.nextTurn Scenario.skirmish) =
    {| CombatManager.newRound := true; CombatManager.currentCombatant := Some 0%nat |} /\
  CombatManager.isDefeated
    (CombatManager.objects (snd (CombatManager.nextTurn Scenario.skirmish)) 0%nat) = true.
Proof.
  split; [|repeat split].
  unfold CombatManager.reachable, Scenario.skirmish. eauto.
Qed.

(** Away from the wrap-around the turn does go to someone standing. *)
Lemma nextTurn_within_round_standing (m : CombatManager.Machine) (k : nat)
  (res : CombatManager.TurnResult) (m' : CombatManager.Machine) :
  CombatManager.isActive (CombatManager.state m) = true ->
  CombatManager.turn_at k (CombatManager.state m) ->
  CombatManager.nextTurn m = (res, m') ->
  CombatManager.newRound res = false ->
  exists r, CombatManager.currentCombatant res = Some r /\
            CombatManager.standing m' r = true.
Proof.
  intros Hact Hat Hnext Hsame. pose proof (nextTurn_spec m k Hact Hat) as Hspec.
  destruct (CombatManager.someone_left m k).
  - destruct Hspec as (k' & r & _ & _ & Hr & _ & Heq). rewrite Heq in Hnext.
    injection Hnext as <- <-. exists r. split; [reflexivity | exact Hr].
  - rewrite Hspec in Hnext. injection Hnext as <- <-. discriminate.
Qed.

(** C2, on the code: the duel has been called off, so the combat is not
    active.  [processAttack] does not look at the active flag: Aria's blow
    still takes the goblin from 6 hit points to 0, marks it defeated and adds
    two lines to the log.  ([nextTurn], for its part, does nothing on a
    combat that is not active: [nextTurn_inactive].) *)
Theorem processAttack_ignores_inactive :
  CombatManager.reachable Scenario.dm Scenario.calledOff /\
  CombatManager.isActive (CombatManager.state Scenario.calledOff) = false /\
  CombatManager.hp (CombatManager.objects Scenario.calledOff 1%nat)
    = {| CombatManager.current := 6; CombatManager.max := 6 |} /\
  CombatManager.isDefeated (CombatManager.objects Scenario.calledOff 1%nat) = false /\
  let m' := CombatManager.exec Scenario.dm Scenario.strike Scenario.calledOff in
  CombatManager.hp (CombatManager.objects m' 1%nat)
    = {| CombatManager.current := 0; CombatManager.max := 6 |} /\
  CombatManager.isDefeated (CombatManager.objects m' 1%nat) = true /\
  CombatManager.combatLog (CombatManager.state m') =
    (CombatManager.combatLog (CombatManager.state Scenario.calledOff)
       ++ ["Aria attacks Goblin 1: HIT for 11 damage! (0/6 HP remaining)";
           "💀 Goblin 1 has been defeated!"])%list.
Proof.
  split; [|repeat split].
  unfold CombatManager.reachable, Scenario.calledOff, Scenario.duel.
  exists Scenario.party, (forced [14 # 20; 7 # 8]),
    [CombatManager.StartCombat [1; 0]%nat; CombatManager.EndCombat].
  reflexivity.
Qed.

(** A call that does not restart combat keeps the turn index on the roster,
    and moves the round counter by one exactly when it completes a cycle. *)
Lemma exec_round (dm : option CombatManager.Narrator) (c : CombatManager.Call)
  (m : CombatManager.Machine) (k : nat) :
  CombatManager.turn_at k (CombatManager.state m) ->
  CombatManager.restarts c = false ->
  (exists k', CombatManager.turn_at k' (CombatManager.state (CombatManager.exec dm c m))) /\
  CombatManager.round (CombatManager.state (CombatManager.exec dm c m)) =
    CombatManager.round (CombatManager.state m)
    + (if CombatManager.completes_cycle c m then 1 else 0).
Proof.
  intros Hat Hre.
  assert (Hother : c <> CombatManager.NextTurn ->
                   CombatManager.completes_cycle c m = false)
    by (destruct c; congruence || reflexivity).
  destruct (CombatManager.isActive (CombatManager.state m)) eqn:Hact.
  2: assert (Hidle : CombatManager.exec dm CombatManager.NextTurn m = m)
      by (cbn [CombatManager.exec]; now rewrite (nextTurn_inactive m Hact)).
  all: destruct c; try discriminate Hre.
  all: try (match goal with
            | |- context [CombatManager.exec ?d ?c ?m0] =>
                destruct (exec_effect d c m0 eq_refl ltac:(discriminate))
                  as ((Hr & Ht & Hc) & _)
            end;
            rewrite Hother by discriminate; split; [|lia];
            exists k; destruct Hat as [Hi Hk]; split; [congruence | now rewrite Hc]).
  - pose proof (nextTurn_spec m k Hact Hat) as Hspec.
    cbn [CombatManager.exec CombatManager.completes_cycle]. rewrite Hact. cbn [andb].
    destruct (CombatManager.someone_left m k).
    + destruct Hspec as (k' & r & Hlt & Hnth & _ & _ & ->). cbn.
      replace (Z.of_nat k' =? 0) with false by (symmetry; apply Z.eqb_neq; lia).
      split; [|lia]. exists k'. split; [reflexivity|]. cbn.
      apply nth_error_Some. congruence.
    + rewrite Hspec. cbn. split; [|reflexivity]. exists 0%nat. split; [reflexivity|].
      cbn. destruct Hat. lia.
  - rewrite Hidle. cbn [CombatManager.completes_cycle]. rewrite Hact. cbn [andb].
    split; [eauto | lia].
Qed.

Lemma exec_roster (dm : option CombatManager.Narrator) (c : CombatManager.Call)
  (m : CombatManager.Machine) :
  CombatManager.restarts c = false ->
  CombatManager.combatants (CombatManager.state (CombatManager.exec dm c m))
    = CombatManager.combatants (CombatManager.state m).
Proof.
  intro Hre.
  assert (Hturn : c = CombatManager.NextTurn \/ c <> CombatManager.NextTurn)
    by (destruct c; (now left) || (right; discriminate)).
  destruct Hturn as [->|Hnt].
  - apply (nextTurn_frame m).
  - apply (exec_effect dm c m Hre Hnt).
Qed.

Lemma exec_scheduled (dm : option CombatManager.Narrator) (c : CombatManager.Call)
  (m : CombatManager.Machine) :
  CombatManager.scheduled (CombatManager.state m) ->
  CombatManager.scheduled (CombatManager.state (CombatManager.exec dm c m)).
Proof.
  intro Hs. destruct (CombatManager.restarts c) eqn:Hre.
  - destruct c; try discriminate. cbn.
    destruct (CombatManager.sort _ roster); [now left|right].
    exists 0%nat. split; [reflexivity|cbn; lia].
  - destruct Hs as [Hnil|[k Hat]].
    + left. now rewrite exec_roster.
    + right. apply (exec_round dm c m k Hat Hre).
Qed.

Lemma run_scheduled (dm : option CombatManager.Narrator) (calls : list CombatManager.Call) :
  forall m, CombatManager.scheduled (CombatManager.state m) ->
            CombatManager.scheduled (CombatManager.state (CombatManager.run dm calls m)).
Proof.
  induction calls as [|c calls IH]; intros m H; [exact H|].
  apply IH, exec_scheduled, H.
Qed.

Lemma reachable_scheduled (dm : option CombatManager.Narrator) (m : CombatManager.Machine) :
  CombatManager.reachable dm m -> CombatManager.scheduled (CombatManager.state m).
Proof. intros (h & g & calls & ->). apply run_scheduled. now left. Qed.

(** C8: along any sequence of calls that does not restart combat, issued to
    a reachable manager with a roster, the round counter grows by exactly the
    number of [nextTurn] calls that bring the turn index back to the head of
    the initiative order.  Such a call of a running combat either finds
    someone standing further down the roster, moves forward and leaves the
    round alone, or finds nobody, goes back to position 0 and adds one to
    the round. *)
Theorem round_counts_cycles (dm : option CombatManager.Narrator)
  (m : CombatManager.Machine) (calls : list CombatManager.Call) :
  CombatManager.reachable dm m ->
  CombatManager.combatants (CombatManager.state m) <> [] ->
  forallb (fun c => negb (CombatManager.restarts c)) calls = true ->
  CombatManager.round (CombatManager.state (CombatManager.run dm calls m)) =
    CombatManager.round (CombatManager.state m) + CombatManager.cycles dm calls m /\
  (CombatManager.isActive (CombatManager.state m) = true ->
   exists k,
     CombatManager.turn_at k (CombatManager.state m) /\
     let (res, m') := CombatManager.nextTurn m in
     if CombatManager.someone_left m k then
       CombatManager.newRound res = false /\
       CombatManager.round (CombatManager.state m')
         = CombatManager.round (CombatManager.state m) /\
       exists k', (k < k')%nat /\ CombatManager.turn_at k' (CombatManager.state m')
     else
       CombatManager.newRound res = true /\
       CombatManager.round (CombatManager.state m')
         = CombatManager.round (CombatManager.state m) + 1 /\
       CombatManager.turnIndex (CombatManager.state m') = CombatManager.Num 0).
Proof.
  intros Hreach Hne Hcalls.
  destruct (reachable_scheduled dm m Hreach) as [Hnil|[k Hat]]; [contradiction|].
  split.
  - clear Hreach Hne. revert m k Hat Hcalls.
    induction calls as [|c calls IH]; intros m k Hat Hcalls; [cbn; lia|].
    cbn in Hcalls. apply andb_prop in Hcalls as [Hc Hcalls]. apply negb_true_iff in Hc.
    destruct (exec_round dm c m k Hat Hc) as [[k' Hat'] Hround].
    change (CombatManager.run dm (c :: calls) m) with
      (CombatManager.run dm calls (CombatManager.exec dm c m)).
    cbn [CombatManager.cycles].
    rewrite (IH _ k' Hat' Hcalls), Hround. lia.
  - intro Hact. exists k. split; [exact Hat|].
    pose proof (nextTurn_spec m k Hact Hat) as Hspec.
    destruct (CombatManager.someone_left m k).
    + destruct Hspec as (k' & r & Hlt & Hnth & _ & _ & ->).
      split; [reflexivity|]. split; [reflexivity|]. exists k'. split; [exact Hlt|].
      split; [reflexivity|]. cbn. apply nth_error_Some. congruence.
    + rewrite Hspec. repeat split.
Qed.

Lemma round_counts_cycles_witness :
  CombatManager.reachable Scenario.dm Scenario.skirmish /\
  CombatManager.combatants (CombatManager.state Scenario.skirmish) <> [] /\
  forallb (fun c => negb (CombatManager.restarts c))
    [CombatManager.NextTurn; CombatManager.NextTurn; CombatManager.NextTurn;
     CombatManager.NextTurn] = true /\
  CombatManager.round
    (CombatManager.state
       (CombatManager.run Scenario.dm
          [CombatManager.NextTurn; CombatManager.NextTurn; CombatManager.NextTurn;
           CombatManager.NextTurn] Scenario.skirmish)) = 1 + 2.
Proof.
  assert (Hreach : CombatManager.reachable Scenario.dm Scenario.skirmish).
  { unfold CombatManager.reachable, Scenario.skirmish. eauto. }
  assert (Hne : CombatManager.combatants (CombatManager.state Scenario.skirmish) <> [])
    by discriminate.
  split; [exact Hreach|]. split; [exact Hne|]. split; [reflexivity|].
  exact (proj1 (round_counts_cycles Scenario.dm Scenario.skirmish
                  [CombatManager.NextTurn; CombatManager.NextTurn;
                   CombatManager.NextTurn; CombatManager.NextTurn]
                  Hreach Hne eq_refl)).
Defined.

(** ** Combat manager: hit points and defeat *)

Lemma write_other (r t : CombatManager.Ref) (c : CombatManager.Combatant)
  (h : CombatManager.Store) :
  r <> t -> CombatManager.write t c h r = h r.
Proof. intro H. unfold CombatManager.write. now destruct (Nat.eqb_spec r t). Qed.

Lemma write_same (t : CombatManager.Ref) (c : CombatManager.Combatant)
  (h : CombatManager.Store) :
  CombatManager.write t c h t = c.
Proof. unfold CombatManager.write. now rewrite Nat.eqb_refl. Qed.

(** No call writes to an object that is defeated. *)
Lemma exec_keeps_defeated (dm : option CombatManager.Narrator) (c : CombatManager.Call)
  (m : CombatManager.Machine) (r : CombatManager.Ref) :
  CombatManager.isDefeated (CombatManager.objects m r) = true ->
  CombatManager.objects (CombatManager.exec dm c m) r = CombatManager.objects m r.
Proof.
  intro Hdef.
  assert (Hkind : CombatManager.restarts c = true \/ c = CombatManager.NextTurn \/
                  (CombatManager.restarts c = false /\ c <> CombatManager.NextTurn))
    by (destruct c; cbn; auto; right; right; split; auto; discriminate).
  destruct Hkind as [Hre|[->|[Hre Hnt]]].
  - destruct c; try discriminate. reflexivity.
  - cbn [CombatManager.exec]. now destruct (nextTurn_frame m) as (-> & _).
  - destruct (exec_effect dm c m Hre Hnt) as (_ & [->|(t & f & _ & Hlive & ->)]);
      [reflexivity|].
    apply write_other. intros ->. congruence.
Qed.

Lemma run_keeps_defeated (dm : option CombatManager.Narrator) (calls : list CombatManager.Call) :
  forall (m : CombatManager.Machine) (r : CombatManager.Ref),
    CombatManager.isDefeated (CombatManager.objects m r) = true ->
    CombatManager.objects (CombatManager.run dm calls m) r = CombatManager.objects m r.
Proof.
  induction calls as [|c calls IH]; intros m r Hdef; [reflexivity|].
  change (CombatManager.run dm (c :: calls) m)
    with (CombatManager.run dm calls (CombatManager.exec dm c m)).
  pose proof (exec_keeps_defeated dm c m r Hdef) as Hstep.
  rewrite IH; [exact Hstep | now rewrite Hstep].
Qed.

(** C9: a defeated combatant is frozen.  No sequence of manager calls
    changes the object (so neither its hit points nor its defeated flag);
    an attack on it is answered with a failure and leaves the whole machine,
    random source included, as it was; so do [applyDamage] and
    [applyHealing]. *)
Theorem defeat_is_permanent (dm : option CombatManager.Narrator)
  (m : CombatManager.Machine) (r : CombatManager.Ref)
  (Hdef : CombatManager.isDefeated (CombatManager.objects m r) = true) :
  (forall calls,
     CombatManager.objects (CombatManager.run dm calls m) r = CombatManager.objects m r) /\
  (forall actorId targetId attackBonus damageRoll,
     fst (CombatManager.getCombatant targetId m) = Some r ->
     exists report,
       CombatManager.processAttack dm actorId targetId attackBonus damageRoll m
         = (CombatManager.Resolved report, m) /\
       CombatManager.success report = false /\ CombatManager.damage report = None) /\
  (forall targetId amount source,
     fst (CombatManager.getCombatant targetId m) = Some r ->
     CombatManager.applyDamage targetId amount source m = (tt, m) /\
     CombatManager.applyHealing targetId amount source m = (tt, m)).
Proof.
  split; [|split].
  - intro calls. now apply run_keeps_defeated.
  - intros a t b d Ht. unfold CombatManager.processAttack. run_mgr.
    rewrite Ht.
    match goal with |- context [find ?p ?l] => destruct (find p l) end;
      cbv beta iota; rewrite ?Hdef; eexists; repeat split.
  - intros t amount src Ht. unfold CombatManager.applyDamage, CombatManager.applyHealing.
    run_mgr. rewrite Ht. cbv beta iota. now rewrite Hdef.
Qed.

Lemma defeat_is_permanent_witness :
  CombatManager.isDefeated (CombatManager.objects Scenario.won 1%nat) = true /\
  CombatManager.objects
    (CombatManager.run Scenario.dm
       [Scenario.strike; CombatManager.ApplyHealing "goblin" 5 "potion";
        CombatManager.ApplyDamage "goblin" 3 "fire";
        CombatManager.StartCombat [1; 0]%nat] Scenario.won) 1%nat
    = CombatManager.objects Scenario.won 1%nat.
Proof.
  split; [reflexivity|].
  exact (proj1 (defeat_is_permanent Scenario.dm Scenario.won 1%nat eq_refl) _).
Defined.

Lemma touched_keeps_hp (c : CombatManager.Call)
  (f : CombatManager.Combatant -> CombatManager.Combatant) (x : CombatManager.Combatant) :
  CombatManager.touched_by c f -> CombatManager.nonnegative_amount c ->
  CombatManager.hp_within x -> CombatManager.hp_within (f x).
Proof.
  unfold CombatManager.hp_within.
  intros [a t b d dmg Hdmg|t amount src|t healing src] Hnn Hx; cbn in Hnn.
  1,2: unfold CombatManager.wound;
    match goal with |- context [if ?b then _ else _] => destruct b end; cbn; lia.
  unfold CombatManager.heal. cbn. lia.
Qed.

Lemma exec_keeps_hp (dm : option CombatManager.Narrator) (c : CombatManager.Call)
  (m : CombatManager.Machine) (r : CombatManager.Ref) :
  CombatManager.nonnegative_amount c ->
  CombatManager.hp_within (CombatManager.objects m r) ->
  CombatManager.hp_within (CombatManager.objects (CombatManager.exec dm c m) r).
Proof.
  intros Hnn Hr.
  assert (Hkind : CombatManager.restarts c = true \/ c = CombatManager.NextTurn \/
                  (CombatManager.restarts c = false /\ c <> CombatManager.NextTurn))
    by (destruct c; cbn; auto; right; right; split; auto; discriminate).
  destruct Hkind as [Hre|[->|[Hre Hnt]]].
  - destruct c; try discriminate. exact Hr.
  - cbn [CombatManager.exec]. now destruct (nextTurn_frame m) as (-> & _).
  - destruct (exec_effect dm c m Hre Hnt) as (_ & [->|(t & f & Hf & _ & ->)]);
      [exact Hr|].
    destruct (Nat.eq_dec r t) as [->|Hne].
    + rewrite write_same. now apply (touched_keeps_hp c).
    + now rewrite write_other.
Qed.

(** C10, as the code has it: as long as the amounts handed to [applyDamage] and
    [applyHealing] are not negative, every sequence of manager calls keeps
    [0 <= hp.current <= hp.max] for every combatant it held for. *)
Theorem hp_stays_within (dm : option CombatManager.Narrator)
  (calls : list CombatManager.Call) (m : CombatManager.Machine) (r : CombatManager.Ref) :
  Forall CombatManager.nonnegative_amount calls ->
  CombatManager.hp_within (CombatManager.objects m r) ->
  CombatManager.hp_within (CombatManager.objects (CombatManager.run dm calls m) r).
Proof.
  intro Hcalls. revert m. induction Hcalls as [|c calls Hc _ IH]; intros m Hr; [exact Hr|].
  apply (IH (CombatManager.exec dm c m)). now apply exec_keeps_hp.
Qed.

Lemma hp_stays_within_witness :
  Forall CombatManager.nonnegative_amount Scenario.routine /\
  CombatManager.hp_within (CombatManager.objects Scenario.duel 0%nat) /\
  CombatManager.hp_within
    (CombatManager.objects (CombatManager.run Scenario.dm Scenario.routine Scenario.duel)
       0%nat).
Proof.
  assert (Hcalls : Forall CombatManager.nonnegative_amount Scenario.routine)
    by (repeat constructor; cbn; lia).
  assert (Hhp : CombatManager.hp_within (CombatManager.objects Scenario.duel 0%nat))
    by (cbv; split; discriminate).
  split; [exact Hcalls|]. split; [exact Hhp|].
  exact (hp_stays_within Scenario.dm Scenario.routine Scenario.duel 0%nat Hcalls Hhp).
Defined.

(** C10 as stated fails: healing by a negative amount takes Aria from 10 to
    -10 hit points, and damage by a negative amount takes her from 10 to 15
    out of 10.  Besides, the felled goblin sits at 0 hit points, which the
    rules engine classifies as disabled. *)
Lemma negative_amounts_break_hp_bounds :
  CombatManager.current (CombatManager.hp (CombatManager.objects Scenario.won 1%nat)) = 0 /\
  RulesEngine.status (RulesEngine.applyDamage 0 6 0) = RulesEngine.Disabled /\
  CombatManager.hp_within (CombatManager.objects Scenario.duel 0%nat) /\
  CombatManager.current
    (CombatManager.hp
       (CombatManager.objects (CombatManager.exec Scenario.dm Scenario.curse Scenario.duel)
          0%nat)) = -10 /\
  ~ CombatManager.hp_within
      (CombatManager.objects (CombatManager.exec Scenario.dm Scenario.curse Scenario.duel)
         0%nat) /\
  ~ CombatManager.hp_within
      (CombatManager.objects (CombatManager.exec Scenario.dm Scenario.boon Scenario.duel)
         0%nat).
Proof.
  split; [reflexivity|]. split; [reflexivity|].
  split; [cbv; split; discriminate|]. split; [reflexivity|].
  split; intros [Hlo Hhi]; cbv in Hlo, Hhi; [now apply Hlo | now apply Hhi].
Qed.

(** ** Enemy policy *)

Lemma Qltb_ge (x y : Q) : Js.Qltb x y = false <-> (y <= x)%Q.
Proof.
  unfold Js.Qltb. rewrite negb_false_iff. apply Qle_bool_iff.
Qed.

Lemma percent_ratio (c : CombatManager.Combatant) :
  0 < CombatManager.max (CombatManager.hp c) ->
  EnemyAI.percent c = Js.Fin (EnemyAI.ratio c).
Proof.
  intro H. unfold EnemyAI.percent, Js.div.
  destruct (Z.eqb_spec (CombatManager.max (CombatManager.hp c)) 0); [lia|reflexivity].
Qed.

(** [reduce] with the callback [weaker] ends on the first of the weakest. *)
Lemma fold_weaker_first_min (rest : list CombatManager.Combatant) :
  forall (seen : list CombatManager.Combatant) (w : CombatManager.Combatant) (i : nat),
    Forall EnemyAI.positive_max (seen ++ rest) ->
    nth_error seen i = Some w ->
    (forall c, In c seen -> (EnemyAI.ratio w <= EnemyAI.ratio c)%Q) ->
    (forall j c, (j < i)%nat -> nth_error seen j = Some c -> (EnemyAI.ratio w < EnemyAI.ratio c)%Q) ->
    exists i',
      nth_error (seen ++ rest) i' = Some (fold_left EnemyAI.weaker rest w) /\
      (forall c, In c (seen ++ rest) ->
                 (EnemyAI.ratio (fold_left EnemyAI.weaker rest w) <= EnemyAI.ratio c)%Q) /\
      (forall j c, (j < i')%nat -> nth_error (seen ++ rest) j = Some c ->
                   (EnemyAI.ratio (fold_left EnemyAI.weaker rest w) < EnemyAI.ratio c)%Q).
Proof.
  induction rest as [|x rest IH]; intros seen w i Hpos Hw Hmin Hfirst.
  - rewrite app_nil_r in *. exists i. cbn. auto.
  - assert (Hwpos : EnemyAI.positive_max w).
    { rewrite Forall_forall in Hpos. apply Hpos, in_or_app. left.
      eapply nth_error_In, Hw. }
    assert (Hxpos : EnemyAI.positive_max x).
    { rewrite Forall_forall in Hpos. apply Hpos, in_or_app. right. now left. }
    assert (Hseen : (seen ++ x :: rest = (seen ++ [x]) ++ rest)%list)
      by now rewrite <- app_assoc.
    rewrite Hseen in *. cbn [fold_left].
    unfold EnemyAI.weaker at 2 4 6.
    rewrite (percent_ratio x Hxpos), (percent_ratio w Hwpos). cbn [Js.lt].
    destruct (Js.Qltb (EnemyAI.ratio x) (EnemyAI.ratio w)) eqn:Hlt.
    + apply Qltb_lt in Hlt.
      apply (IH (seen ++ [x])%list x (List.length seen)); [exact Hpos| | |].
      * rewrite nth_error_app2, Nat.sub_diag; [reflexivity|lia].
      * intros c Hc. apply in_app_or in Hc as [Hc|[<-|[]]]; [|apply Qle_refl].
        apply Qlt_le_weak. eapply Qlt_le_trans; [exact Hlt|now apply Hmin].
      * intros j c Hj Hc. rewrite nth_error_app1 in Hc by exact Hj.
        eapply Qlt_le_trans; [exact Hlt|]. eapply Hmin, nth_error_In, Hc.
    + apply Qltb_ge in Hlt.
      assert (Hi : (i < List.length seen)%nat) by (apply nth_error_Some; congruence).
      apply (IH (seen ++ [x])%list w i); [exact Hpos| | |].
      * now rewrite nth_error_app1.
      * intros c Hc. apply in_app_or in Hc as [Hc|[<-|[]]]; [now apply Hmin|exact Hlt].
      * intros j c Hj Hc. rewrite nth_error_app1 in Hc by lia. now apply (Hfirst j).
Qed.

(** C7: with no player left standing the enemy passes, without drawing a
    random number.  Otherwise its target is the first, in the order of the
    list, among the standing players of least [hp.current / hp.max]; below a
    quarter of its own hit points the enemy draws a number and defends when
    the number is below 0.3, whatever the target; in every other case it
    attacks the target, named by its id. *)
Theorem decideAction_targets_weakest (enemy : CombatManager.Combatant)
  (allCombatants : list CombatManager.Combatant) (g : RandomSource)
  (Hself : EnemyAI.positive_max enemy)
  (Hlive : Forall EnemyAI.positive_max (filter EnemyAI.is_target allCombatants)) :
  let liveTargets := filter EnemyAI.is_target allCombatants in
  let (decision, g') := EnemyAI.decideAction enemy allCombatants g in
  match liveTargets with
  | [] =>
      EnemyAI.action decision = EnemyAI.Pass /\
      EnemyAI.targetId decision = None /\ g' = g
  | _ :: _ =>
      exists i target,
        nth_error liveTargets i = Some target /\
        (forall c, In c liveTargets -> (EnemyAI.ratio target <= EnemyAI.ratio c)%Q) /\
        (forall j c, (j < i)%nat -> nth_error liveTargets j = Some c ->
                     (EnemyAI.ratio target < EnemyAI.ratio c)%Q) /\
        if Js.Qltb (EnemyAI.ratio enemy) (1 # 4) then
          g' = snd (random g) /\
          if Js.Qltb (fst (random g)) (3 # 10) then
            EnemyAI.action decision = EnemyAI.Defend /\
            EnemyAI.targetId decision = None
          else
            EnemyAI.action decision = EnemyAI.Attack /\
            EnemyAI.targetId decision = Some (CombatManager.id target)
        else
          g' = g /\
          EnemyAI.action decision = EnemyAI.Attack /\
          EnemyAI.targetId decision = Some (CombatManager.id target)
  end.
Proof.
  cbv zeta. unfold EnemyAI.decideAction.
  change (fun c => CombatManager.isPlayer c && negb (CombatManager.isDefeated c))
    with EnemyAI.is_target.
  destruct (filter EnemyAI.is_target allCombatants) as [|first rest] eqn:Htargets.
  - cbn. auto.
  - assert (Hone : forall c, In c [first] -> (EnemyAI.ratio first <= EnemyAI.ratio c)%Q)
      by (intros c [<-|[]]; apply Qle_refl).
    assert (Hnone : forall j c, (j < 0)%nat -> nth_error [first] j = Some c ->
                                (EnemyAI.ratio first < EnemyAI.ratio c)%Q) by (intros; lia).
    destruct (fold_weaker_first_min rest [first] first 0%nat Hlive eq_refl Hone Hnone)
      as (i & Hnth & Hmin & Hfirst).
    cbn [app] in *.
    rewrite (percent_ratio enemy Hself). cbn [Js.lt].
    unfold bind, ret.
    destruct (Js.Qltb (EnemyAI.ratio enemy) (1 # 4)).
    + destruct (random g) as [r g1] eqn:Hr. cbn [fst snd]. cbv beta iota.
      destruct (Js.Qltb r (3 # 10)); cbv beta iota;
        exists i, (fold_left EnemyAI.weaker rest first); cbn; auto 7.
    + cbv beta iota. exists i, (fold_left EnemyAI.weaker rest first). cbn. auto 7.
Qed.

Lemma decideAction_targets_weakest_witness :
  EnemyAI.positive_max Scenario.cornered /\
  Forall EnemyAI.positive_max (filter EnemyAI.is_target Scenario.field) /\
  exists i target,
    nth_error (filter EnemyAI.is_target Scenario.field) i = Some target /\
    EnemyAI.targetId
      (fst (EnemyAI.decideAction Scenario.cornered Scenario.field (forced [1 # 2])))
      = Some (CombatManager.id target).
Proof.
  assert (Hself : EnemyAI.positive_max Scenario.cornered) by reflexivity.
  assert (Hlive : Forall EnemyAI.positive_max (filter EnemyAI.is_target Scenario.field))
    by (repeat constructor).
  split; [exact Hself|]. split; [exact Hlive|].
  pose proof (decideAction_targets_weakest Scenario.cornered Scenario.field
                (forced [1 # 2]) Hself Hlive) as H.
  cbn in H. destruct H as (i & target & Hnth & _ & _ & _ & _ & Hid).
  exists i, target. split; [exact Hnth | exact Hid].
Defined.

(** * Further properties of the code *)

(** ** Rules engine: rolls and checks *)

Lemma fold_add_sum (l : list Z) :
  forall a, fold_left Z.add l a = a + RulesEngine.sum l.
Proof.
  unfold RulesEngine.sum. induction l as [|x l IH]; intro a; cbn; [lia|].
  rewrite IH. lia.
Qed.

Lemma rollD20_unfold (mods : list Z) (g : RandomSource) :
  RulesEngine.rollD20 mods g =
  (let d := RulesEngine.die 20 (sample g (cursor g)) in
   {| RulesEngine.d20 := d; RulesEngine.modifiers := mods;
      RulesEngine.total := d + RulesEngine.sum mods;
      RulesEngine.criticalHit := d =? 20; RulesEngine.criticalMiss := d =? 1 |},
   RulesEngine.skip 1 g).
Proof.
  unfold RulesEngine.rollD20, bind, ret, random, RulesEngine.skip. cbv zeta.
  rewrite fold_add_sum, Nat.add_1_r. f_equal.
Qed.

Lemma d20_range (g : RandomSource) :
  unit_draws g -> 1 <= RulesEngine.die 20 (sample g (cursor g)) <= 20.
Proof. intro Hg. destruct (Hg (cursor g)). apply die_range; auto; lia. Qed.

(** X1: [rollD20] shows a d20 between 1 and 20 and adds the modifiers to it; the
    critical flags are those of a natural 20 (as [threatsCritical] with its
    default range sees it) and of a natural 1; one random number is used. *)
Theorem rollD20_in_range (g : RandomSource) (mods : list Z) (Hg : unit_draws g) :
  let r := fst (RulesEngine.rollD20 mods g) in
  1 <= RulesEngine.d20 r <= 20 /\
  RulesEngine.total r = RulesEngine.d20 r + RulesEngine.sum mods /\
  RulesEngine.modifiers r = mods /\
  RulesEngine.criticalHit r = RulesEngine.threatsCritical (RulesEngine.d20 r) 20 /\
  (RulesEngine.criticalMiss r = true <-> RulesEngine.d20 r = 1) /\
  snd (RulesEngine.rollD20 mods g) = RulesEngine.skip 1 g.
Proof.
  rewrite rollD20_unfold. cbv zeta. pose proof (d20_range g Hg) as Hd.
  cbn [fst snd RulesEngine.d20 RulesEngine.total RulesEngine.modifiers
       RulesEngine.criticalHit RulesEngine.criticalMiss].
  unfold RulesEngine.threatsCritical.
  split; [exact Hd|]. split; [reflexivity|]. split; [reflexivity|].
  split; [|split; [apply Z.eqb_eq | reflexivity]].
  destruct (Z.eqb_spec (RulesEngine.die 20 (sample g (cursor g))) 20);
    destruct (Z.leb_spec 20 (RulesEngine.die 20 (sample g (cursor g)))); lia || reflexivity.
Qed.

Lemma rollD20_in_range_witness :
  unit_draws (forced [19 # 20]) /\
  1 <= RulesEngine.d20 (fst (RulesEngine.rollD20 [3; -1] (forced [19 # 20]))) <= 20.
Proof.
  assert (Hg : unit_draws (forced [19 # 20])).
  { intro i. destruct i as [|[|i]]; cbn; split; reflexivity || discriminate. }
  split; [exact Hg|].
  exact (proj1 (rollD20_in_range (forced [19 # 20]) [3; -1] Hg)).
Defined.

(** Every d20 check compares the same total with its threshold. *)
Lemma check_total (bonus : Z) (extra : list Z) (g : RandomSource) :
  RulesEngine.total (fst (RulesEngine.rollD20 (bonus :: extra) g)) =
  RulesEngine.die 20 (sample g (cursor g)) + bonus + RulesEngine.sum extra.
Proof. rewrite rollD20_unfold. cbn. unfold RulesEngine.sum. cbn. lia. Qed.

(** X2: [resolveAttack] hits exactly when the d20 plus the bonus and the
    additional modifiers reaches the armour class, ties included.  Nothing is
    automatic: a bonus within one point of the armour class always hits, and
    one more than twenty points short never does, natural 20 or not. *)
Theorem resolveAttack_hits_iff (g : RandomSource) (attackBonus targetAC : Z)
  (extra : list Z) (Hg : unit_draws g) :
  let res := fst (RulesEngine.resolveAttack attackBonus targetAC extra g) in
  let d := RulesEngine.die 20 (sample g (cursor g)) in
  let flat := attackBonus + RulesEngine.sum extra in
  1 <= d <= 20 /\
  RulesEngine.d20 (RulesEngine.roll res) = d /\
  (RulesEngine.success res = true <-> targetAC <= d + flat) /\
  (targetAC <= flat + 1 -> RulesEngine.success res = true) /\
  (flat + 20 < targetAC -> RulesEngine.success res = false) /\
  RulesEngine.dc res = targetAC /\
  snd (RulesEngine.resolveAttack attackBonus targetAC extra g) = RulesEngine.skip 1 g.
Proof.
  cbv zeta. pose proof (d20_range g Hg) as Hd.
  pose proof (check_total attackBonus extra g) as Ht.
  unfold RulesEngine.resolveAttack, bind, ret.
  rewrite rollD20_unfold in *. cbv zeta in *.
  cbn [fst snd RulesEngine.success RulesEngine.roll RulesEngine.dc RulesEngine.d20
       RulesEngine.total] in *.
  rewrite Ht.
  split; [exact Hd|]. split; [reflexivity|].
  split; [rewrite Z.leb_le; lia|].
  split; [intro; apply Z.leb_le; lia|].
  split; [intro; apply Z.leb_gt; lia|]. split; reflexivity.
Qed.

Lemma resolveAttack_hits_iff_witness :
  unit_draws (forced [0 # 1]) /\
  RulesEngine.success (fst (RulesEngine.resolveAttack 14 15 [] (forced [0 # 1]))) = true.
Proof.
  assert (Hg : unit_draws (forced [0 # 1])).
  { intro i. destruct i as [|[|i]]; cbn; split; reflexivity || discriminate. }
  split; [exact Hg|].
  destruct (resolveAttack_hits_iff (forced [0 # 1]) 14 15 [] Hg) as (_ & _ & _ & H & _).
  apply H. cbn. lia.
Defined.

(** X3: saving throws, skill checks and critical confirmations pass exactly
    when the d20 plus bonus and modifiers reaches the threshold, as an attack
    roll from the same random source would, and use one random number each. *)
Theorem checks_succeed_iff (g : RandomSource) (checkBonus threshold : Z) (extra : list Z) :
  let d := RulesEngine.die 20 (sample g (cursor g)) in
  let pass := threshold <=? d + checkBonus + RulesEngine.sum extra in
  let save := RulesEngine.resolveSavingThrow checkBonus threshold extra g in
  let skill := RulesEngine.resolveSkillCheck checkBonus threshold extra g in
  let confirm := RulesEngine.confirmCritical checkBonus threshold extra g in
  let attack := RulesEngine.resolveAttack checkBonus threshold extra g in
  RulesEngine.success (fst save) = pass /\
  RulesEngine.success (fst skill) = pass /\
  fst confirm = pass /\
  RulesEngine.success (fst attack) = pass /\
  RulesEngine.roll (fst save) = RulesEngine.roll (fst attack) /\
  RulesEngine.roll (fst skill) = RulesEngine.roll (fst attack) /\
  snd save = RulesEngine.skip 1 g /\ snd skill = RulesEngine.skip 1 g /\
  snd confirm = RulesEngine.skip 1 g.
Proof.
  cbv zeta. pose proof (check_total checkBonus extra g) as Ht.
  unfold RulesEngine.resolveSavingThrow, RulesEngine.resolveSkillCheck,
    RulesEngine.confirmCritical, RulesEngine.resolveAttack, bind, ret.
  rewrite rollD20_unfold in *. cbv zeta in *.
  cbn [fst snd RulesEngine.success RulesEngine.roll RulesEngine.total] in *.
  rewrite Ht. repeat split.
Qed.

(** ** Rules engine: dice and damage *)

Lemma sum_bounds (lo hi : Z) (l : list Z) :
  Forall (fun f => lo <= f <= hi) l ->
  Z.of_nat (List.length l) * lo <= RulesEngine.sum l <= Z.of_nat (List.length l) * hi.
Proof.
  unfold RulesEngine.sum. induction 1 as [|x l Hx _ IH]; cbn [List.length fold_right]; [lia|].
  rewrite Nat2Z.inj_succ. lia.
Qed.

Lemma faces_length (g : RandomSource) (sides : Z) (from n : nat) :
  List.length (RulesEngine.faces g sides from n) = n.
Proof. unfold RulesEngine.faces. now rewrite length_map, length_seq. Qed.

Lemma faces_sum_bounds (g : RandomSource) (sides : Z) (from n : nat) :
  unit_draws g -> 1 <= sides ->
  Z.of_nat n <= RulesEngine.sum (RulesEngine.faces g sides from n) <= Z.of_nat n * sides.
Proof.
  intros Hg Hs. pose proof (sum_bounds 1 sides _ (faces_range g sides from n Hg Hs)) as H.
  rewrite faces_length in H. lia.
Qed.

(** X4: [rollDice] stays between the modifier plus one point and the modifier
    plus [sides] points per die, uses one random number per die, and with no
    dice to roll returns the modifier without drawing. *)
Theorem rollDice_bounds (g : RandomSource) (count sides modifier : Z)
  (Hg : unit_draws g) (Hsides : 1 <= sides) :
  let n := Z.max 0 count in
  modifier + n <= fst (RulesEngine.rollDice count sides modifier g)
              <= modifier + n * sides /\
  snd (RulesEngine.rollDice count sides modifier g) = RulesEngine.skip (Z.to_nat count) g /\
  (count <= 0 -> RulesEngine.rollDice count sides modifier g = (modifier, g)).
Proof.
  cbv zeta. unfold RulesEngine.rollDice. rewrite rollDice_loop_sum. cbn [fst snd].
  pose proof (faces_sum_bounds g sides (cursor g) (Z.to_nat count) Hg Hsides) as Hb.
  split; [|split; [reflexivity|]].
  - lia.
  - intro Hc. replace (Z.to_nat count) with 0%nat by lia.
    rewrite skip_zero. cbn. f_equal. lia.
Qed.

Lemma rollDice_bounds_witness :
  unit_draws (forced [7 # 8; 1 # 8]) /\ 1 <= 8 /\
  3 + 2 <= fst (RulesEngine.rollDice 2 8 3 (forced [7 # 8; 1 # 8])) <= 3 + 2 * 8.
Proof.
  assert (Hg : unit_draws (forced [7 # 8; 1 # 8])).
  { intro i. destruct i as [|[|[|i]]]; cbn; split; reflexivity || discriminate. }
  split; [exact Hg|]. split; [lia|].
  exact (proj1 (rollDice_bounds (forced [7 # 8; 1 # 8]) 2 8 3 Hg ltac:(lia))).
Defined.

(** X5: the damage rolled lies between the floor-at-0 of the least and of the
    greatest the dice allow, with twice the dice on a critical; from the same
    random source a critical never deals less than the plain roll. *)
Theorem resolveDamage_bounds (g : RandomSource) (diceCount diceSides damageModifier : Z)
  (Hg : unit_draws g) (Hsides : 1 <= diceSides) :
  let n := Z.max 0 diceCount in
  let plain := fst (RulesEngine.resolveDamage diceCount diceSides damageModifier false g) in
  let critical := fst (RulesEngine.resolveDamage diceCount diceSides damageModifier true g) in
  Z.max 0 (damageModifier + n) <= plain <= Z.max 0 (damageModifier + n * diceSides) /\
  Z.max 0 (damageModifier + 2 * n) <= critical
    <= Z.max 0 (damageModifier + 2 * n * diceSides) /\
  plain <= critical.
Proof.
  cbv zeta. rewrite !resolveDamage_unfold. cbn [fst].
  pose proof (faces_sum_bounds g diceSides (cursor g) (Z.to_nat diceCount) Hg Hsides) as H1.
  pose proof (faces_sum_bounds g diceSides (cursor g + Z.to_nat diceCount)
                (Z.to_nat diceCount) Hg Hsides) as H2.
  assert (Hn : Z.of_nat (Z.to_nat diceCount) = Z.max 0 diceCount) by lia.
  rewrite Hn in H1, H2. nia.
Qed.

Lemma resolveDamage_bounds_witness :
  unit_draws (forced [7 # 8; 1 # 8]) /\ 1 <= 8 /\
  fst (RulesEngine.resolveDamage 1 8 3 false (forced [7 # 8; 1 # 8]))
    <= fst (RulesEngine.resolveDamage 1 8 3 true (forced [7 # 8; 1 # 8])).
Proof.
  assert (Hg : unit_draws (forced [7 # 8; 1 # 8])).
  { intro i. destruct i as [|[|[|i]]]; cbn; split; reflexivity || discriminate. }
  split; [exact Hg|]. split; [lia|].
  exact (proj2 (proj2 (resolveDamage_bounds (forced [7 # 8; 1 # 8]) 1 8 3 Hg ltac:(lia)))).
Defined.

(** X6: an initiative roll lies between the modifier plus 1 and the modifier
    plus 20 and uses one random number. *)
Theorem resolveInitiative_range (g : RandomSource) (initiativeModifier : Z)
  (Hg : unit_draws g) :
  initiativeModifier + 1 <= fst (RulesEngine.resolveInitiative initiativeModifier g)
    <= initiativeModifier + 20 /\
  snd (RulesEngine.resolveInitiative initiativeModifier g) = RulesEngine.skip 1 g.
Proof.
  unfold RulesEngine.resolveInitiative, bind, ret. rewrite rollD20_unfold. cbv zeta.
  cbn [fst snd RulesEngine.total]. pose proof (d20_range g Hg). unfold RulesEngine.sum. cbn.
  split; [lia|reflexivity].
Qed.

Lemma resolveInitiative_range_witness :
  unit_draws (forced [1 # 2]) /\
  -1 + 1 <= fst (RulesEngine.resolveInitiative (-1) (forced [1 # 2])) <= -1 + 20.
Proof.
  assert (Hg : unit_draws (forced [1 # 2])).
  { intro i. destruct i as [|[|i]]; cbn; split; reflexivity || discriminate. }
  split; [exact Hg|].
  exact (proj1 (resolveInitiative_range (forced [1 # 2]) (-1) Hg)).
Defined.

(** ** Rules engine: ability scores and hit points *)

(** X7: the ability modifier is half of the score above 10, rounded down also
    for scores below 10; two more points of score are one more point of
    modifier, and a higher score never has a lower modifier. *)
Theorem getAbilityModifier_steps (score other : Z) (Hle : score <= other) :
  let m := RulesEngine.getAbilityModifier score in
  2 * m <= score - 10 <= 2 * m + 1 /\
  RulesEngine.getAbilityModifier (score + 2) = m + 1 /\
  m <= RulesEngine.getAbilityModifier other.
Proof.
  cbv zeta. unfold RulesEngine.getAbilityModifier.
  pose proof (Z.div_mod (score - 10) 2 ltac:(lia)).
  pose proof (Z.mod_pos_bound (score - 10) 2 ltac:(lia)).
  split; [lia|]. split.
  - replace (score + 2 - 10) with (score - 10 + 1 * 2) by lia.
    rewrite Z.div_add by lia. lia.
  - apply Z.div_le_mono; lia.
Qed.

Lemma getAbilityModifier_steps_witness :
  7 <= 16 /\
  RulesEngine.getAbilityModifier 7 <= RulesEngine.getAbilityModifier 16.
Proof.
  split; [lia|].
  exact (proj2 (proj2 (getAbilityModifier_steps 7 16 ltac:(lia)))).
Defined.

(** X8: healing never goes above the maximum; what it does not add to the hit
    points it reports as overheal, so that the two add up to the hit points
    before plus the healing; there is overheal only at the maximum. *)
Theorem applyHealing_caps_and_conserves (currentHP maxHP healing : Z) :
  let r := RulesEngine.applyHealing currentHP maxHP healing in
  RulesEngine.healedHP r <= maxHP /\
  0 <= RulesEngine.overheal r /\
  RulesEngine.healedHP r + RulesEngine.overheal r = currentHP + healing /\
  (0 < RulesEngine.overheal r <-> maxHP < currentHP + healing) /\
  (RulesEngine.overheal r = 0 \/ RulesEngine.healedHP r = maxHP).
Proof. cbv zeta. unfold RulesEngine.applyHealing. cbn. lia. Qed.

Lemma applyDamage_newHP (currentHP maxHP damage : Z) :
  RulesEngine.newHP (RulesEngine.applyDamage currentHP maxHP damage)
    = Z.max (-10) (currentHP - damage).
Proof.
  unfold RulesEngine.applyDamage.
  repeat match goal with |- context [if ?b then _ else _] => destruct b end; reflexivity.
Qed.

Lemma applyDamage_dead_iff (currentHP maxHP damage : Z) :
  RulesEngine.status (RulesEngine.applyDamage currentHP maxHP damage) = RulesEngine.Dead
  <-> currentHP - damage <= -10.
Proof.
  unfold RulesEngine.applyDamage.
  destruct (Z.leb_spec (Z.max (-10) (currentHP - damage)) (-10)); cbn; [split; [lia|reflexivity]|].
  repeat match goal with |- context [if ?b then _ else _] => destruct b end;
    cbn; split; (discriminate || lia).
Qed.

(** X9: damage taken in two steps, the second not negative, leaves the hit
    points and the status of the same damage taken at once; the dead stay
    dead, at -10. *)
Theorem applyDamage_accumulates (currentHP maxHP d1 d2 : Z) (Hd2 : 0 <= d2) :
  let first := RulesEngine.applyDamage currentHP maxHP d1 in
  let second := RulesEngine.applyDamage (RulesEngine.newHP first) maxHP d2 in
  RulesEngine.newHP second
    = RulesEngine.newHP (RulesEngine.applyDamage currentHP maxHP (d1 + d2)) /\
  RulesEngine.status second
    = RulesEngine.status (RulesEngine.applyDamage currentHP maxHP (d1 + d2)) /\
  (RulesEngine.status first = RulesEngine.Dead ->
   RulesEngine.status second = RulesEngine.Dead /\ RulesEngine.newHP second = -10).
Proof.
  cbv zeta.
  assert (Hhp : Z.max (-10) (Z.max (-10) (currentHP - d1) - d2)
                = Z.max (-10) (currentHP - (d1 + d2))) by lia.
  split; [now rewrite !applyDamage_newHP|]. split.
  - rewrite applyDamage_newHP. unfold RulesEngine.applyDamage at 1 2. rewrite Hhp.
    repeat match goal with |- context [if ?b then _ else _] => destruct b end; reflexivity.
  - intro Hdead. apply applyDamage_dead_iff in Hdead.
    rewrite !applyDamage_newHP. split; [|lia]. apply applyDamage_dead_iff. lia.
Qed.

Lemma applyDamage_accumulates_witness :
  0 <= 4 /\
  RulesEngine.newHP
    (RulesEngine.applyDamage (RulesEngine.newHP (RulesEngine.applyDamage 5 20 9)) 20 4)
  = RulesEngine.newHP (RulesEngine.applyDamage 5 20 (9 + 4)).
Proof.
  split; [lia|]. exact (proj1 (applyDamage_accumulates 5 20 9 4 ltac:(lia))).
Defined.

(** X10: as long as the damage stays above the floor of -10 and the hit points
    were within the maximum, healing by the amount of the damage gives the
    hit points back, with nothing left over. *)
Theorem healing_undoes_damage (currentHP maxHP amount : Z)
  (Hfloor : -10 <= currentHP - amount) (Hcap : currentHP <= maxHP) :
  RulesEngine.healedHP
    (RulesEngine.applyHealing
       (RulesEngine.newHP (RulesEngine.applyDamage currentHP maxHP amount)) maxHP amount)
  = currentHP /\
  RulesEngine.overheal
    (RulesEngine.applyHealing
       (RulesEngine.newHP (RulesEngine.applyDamage currentHP maxHP amount)) maxHP amount)
  = 0.
Proof. rewrite applyDamage_newHP. unfold RulesEngine.applyHealing. cbn. lia. Qed.

Lemma healing_undoes_damage_witness :
  -10 <= 13 - 20 /\ 13 <= 28 /\
  RulesEngine.healedHP
    (RulesEngine.applyHealing
       (RulesEngine.newHP (RulesEngine.applyDamage 13 28 20)) 28 20) = 13.
Proof.
  split; [lia|]. split; [lia|].
  exact (proj1 (healing_undoes_damage 13 28 20 ltac:(lia) ltac:(lia))).
Defined.

(** ** Rules engine: action economy *)

(** X11: a full-round action is allowed exactly when a standard and a move
    action both are; a refusal always comes with a reason and an approval
    with none; an action type the switch does not know is allowed; movement
    is allowed when the context does not say how much is left. *)
Theorem validateAction_full_needs_both (actionType : string)
  (context : RulesEngine.ActionContext) :
  let check t := RulesEngine.valid (RulesEngine.validateAction t context) in
  check "full" = check "standard" && check "move" /\
  (RulesEngine.valid (RulesEngine.validateAction actionType context) = false <->
   RulesEngine.invalid_reason (RulesEngine.validateAction actionType context) <> None) /\
  (~ In actionType ["standard"; "move"; "swift"; "full"; "movement"] ->
   RulesEngine.valid (RulesEngine.validateAction actionType context) = true) /\
  (RulesEngine.movementRemaining context = None -> check "movement" = true).
Proof.
  cbv zeta. split; [|split; [|split]].
  - unfold RulesEngine.validateAction. cbn.
    destruct (RulesEngine.lacks (RulesEngine.hasStandardAction context)),
      (RulesEngine.lacks (RulesEngine.hasMoveAction context)); reflexivity.
  - unfold RulesEngine.validateAction, RulesEngine.refuse.
    repeat match goal with
           | |- context [if ?b then _ else _] => destruct b
           | |- context [match ?o with Some _ => _ | None => _ end] => destruct o
           end; cbn; split; congruence.
  - intro Hnot. unfold RulesEngine.validateAction.
    repeat match goal with
           | |- context [String.eqb actionType ?t] =>
               destruct (String.eqb_spec actionType t) as [->|_];
               [exfalso; apply Hnot; cbn; tauto|]
           end.
    reflexivity.
  - intro Hnone. unfold RulesEngine.validateAction. cbn. now rewrite Hnone.
Qed.

(** ** Combat manager: lookups and attacks *)

Lemma find_first {A} (p : A -> bool) (l : list A) :
  match find p l with
  | Some x =>
      exists k, nth_error l k = Some x /\ p x = true /\
                forall j y, (j < k)%nat -> nth_error l j = Some y -> p y = false
  | None => forall y, In y l -> p y = false
  end.
Proof.
  induction l as [|a l IH]; cbn; [tauto|].
  destruct (p a) eqn:Ha.
  - exists 0%nat. repeat split; auto. intros j y Hj. lia.
  - destruct (find p l) as [x|].
    + destruct IH as (k & Hk & Hx & Hbefore). exists (S k). repeat split; auto.
      intros [|j] y Hj Hy; cbn in Hy; [congruence|]. apply (Hbefore j); [lia|exact Hy].
    + intros y [<-|Hy]; auto.
Qed.

(** X12: [getCombatant] writes nothing and returns the first combatant of the
    roster that carries the id; it returns nothing exactly when no combatant
    of the roster carries it. *)
Theorem getCombatant_first_match (key : string) (m : CombatManager.Machine) :
  let roster := CombatManager.combatants (CombatManager.state m) in
  let named r := CombatManager.id (CombatManager.objects m r) = key in
  snd (CombatManager.getCombatant key m) = m /\
  match fst (CombatManager.getCombatant key m) with
  | Some r =>
      exists k, nth_error roster k = Some r /\ named r /\
                forall j r', (j < k)%nat -> nth_error roster j = Some r' -> ~ named r'
  | None => forall r, In r roster -> ~ named r
  end.
Proof.
  cbv zeta. split; [reflexivity|]. cbn [fst CombatManager.getCombatant].
  pose proof (find_first
                (fun r => String.eqb (CombatManager.id (CombatManager.objects m r)) key)
                (CombatManager.combatants (CombatManager.state m))) as H.
  destruct (find _ _) as [r|].
  - destruct H as (k & Hk & Hr & Hbefore). exists k. split; [exact Hk|].
    split; [now apply String.eqb_eq|].
    intros j r' Hj Hr' Hid. specialize (Hbefore j r' Hj Hr').
    apply String.eqb_neq in Hbefore. contradiction.
  - intros r Hr Hid. specialize (H r Hr). apply String.eqb_neq in H. contradiction.
Qed.

(** X13: with an id that is not on the roster, as actor or as target,
    [processAttack] answers Invalid combatants, and [applyDamage] and
    [applyHealing] return; nothing is rolled, written or logged. *)
Theorem unknown_id_changes_nothing (dm : option CombatManager.Narrator)
  (known unknown : string) (m : CombatManager.Machine)
  (Hunknown : fst (CombatManager.getCombatant unknown m) = None) :
  (forall attackBonus damageRoll,
     CombatManager.processAttack dm known unknown attackBonus damageRoll m
       = (CombatManager.Resolved CombatManager.invalid, m) /\
     CombatManager.processAttack dm unknown known attackBonus damageRoll m
       = (CombatManager.Resolved CombatManager.invalid, m)) /\
  (forall amount source,
     CombatManager.applyDamage unknown amount source m = (tt, m) /\
     CombatManager.applyHealing unknown amount source m = (tt, m)).
Proof.
  cbn in Hunknown. split.
  - intros b d. unfold CombatManager.processAttack. run_mgr. rewrite Hunknown.
    split; [|reflexivity].
    match goal with |- context [find ?p ?l] => destruct (find p l) end; reflexivity.
  - intros amount src. unfold CombatManager.applyDamage, CombatManager.applyHealing.
    run_mgr. now rewrite Hunknown.
Qed.

Lemma unknown_id_changes_nothing_witness :
  fst (CombatManager.getCombatant "nobody" Scenario.duel) = None /\
  CombatManager.applyDamage "nobody" 5 "trap" Scenario.duel = (tt, Scenario.duel).
Proof.
  split; [reflexivity|].
  exact (proj1 (proj2 (unknown_id_changes_nothing Scenario.dm "aria" "nobody" Scenario.duel
                         eq_refl) 5 "trap")).
Defined.

(** X14: an attack by a known actor on a known target that still stands keeps
    the schedule and the active flag and writes to the target only.  A miss
    leaves the target as it was and logs the MISS line; a hit takes the
    damage rolled off the target's hit points, down to 0 at most, marks it
    defeated exactly when it reaches 0, reports the damage and logs one line,
    two when the target falls.  Nothing is asked of the actor but to be on
    the roster. *)
Theorem processAttack_contract (narrate : CombatManager.Narrator)
  (actorId targetId : string) (attackBonus : Z) (damageRoll : CombatManager.DamageRoll)
  (m : CombatManager.Machine) (ra rt : CombatManager.Ref)
  (Hactor : fst (CombatManager.getCombatant actorId m) = Some ra)
  (Htarget : fst (CombatManager.getCombatant targetId m) = Some rt)
  (Hlive : CombatManager.isDefeated (CombatManager.objects m rt) = false) :
  let target := CombatManager.objects m rt in
  let attack :=
    RulesEngine.resolveAttack attackBonus (CombatManager.ac target) [] (CombatManager.rng m) in
  let rolled :=
    RulesEngine.resolveDamage (CombatManager.dice damageRoll) (CombatManager.sides damageRoll)
      (CombatManager.bonus damageRoll) false (snd attack) in
  let out :=
    CombatManager.processAttack (Some narrate) actorId targetId attackBonus damageRoll m in
  let m' := snd out in
  CombatManager.same_schedule (CombatManager.state m) (CombatManager.state m') /\
  CombatManager.isActive (CombatManager.state m')
    = CombatManager.isActive (CombatManager.state m) /\
  (forall r, r <> rt -> CombatManager.objects m' r = CombatManager.objects m r) /\
  if RulesEngine.success (fst attack) then
    CombatManager.objects m' rt = CombatManager.wound (fst rolled) target /\
    CombatManager.current (CombatManager.hp (CombatManager.objects m' rt))
      = Z.max 0 (CombatManager.current (CombatManager.hp target) - fst rolled) /\
    (CombatManager.isDefeated (CombatManager.objects m' rt) = true <->
     CombatManager.current (CombatManager.hp (CombatManager.objects m' rt)) = 0) /\
    CombatManager.rng m' = snd rolled /\
    (exists text,
       fst out = CombatManager.Resolved
                   {| CombatManager.success := true;
                      CombatManager.damage := Some (fst rolled);
                      CombatManager.narrative := text |}) /\
    List.length (CombatManager.combatLog (CombatManager.state m')) =
      (List.length (CombatManager.combatLog (CombatManager.state m))
       + (if CombatManager.isDefeated (CombatManager.objects m' rt) then 2 else 1))%nat
  else
    CombatManager.objects m' rt = target /\
    CombatManager.rng m' = snd attack /\
    (exists text,
       fst out = CombatManager.Resolved
                   {| CombatManager.success := false; CombatManager.damage := None;
                      CombatManager.narrative := text |}) /\
    CombatManager.combatLog (CombatManager.state m') =
      (CombatManager.combatLog (CombatManager.state m)
         ++ [(CombatManager.name (CombatManager.objects m ra) ++ " attacks "
                ++ CombatManager.name target ++ ": MISS!")%string])%list.
Proof.
  cbv zeta. cbn [fst CombatManager.getCombatant] in Hactor, Htarget.
  unfold CombatManager.processAttack, CombatManager.describe. run_mgr.
  rewrite Hactor, Htarget. cbv beta iota. rewrite Hlive.
  destruct (RulesEngine.resolveAttack _ _ _ _) as [res g1]. cbn [fst snd].
  destruct (RulesEngine.success res).
  - destruct (RulesEngine.resolveDamage _ _ _ _ _) as [dmg g2]. cbn [fst snd].
    cbv beta iota.
    cbn [CombatManager.objects CombatManager.state CombatManager.rng].
    rewrite !write_same.
    assert (Hwound : CombatManager.isDefeated
                       (CombatManager.wound dmg (CombatManager.objects m rt)) = true <->
                     CombatManager.current
                       (CombatManager.hp (CombatManager.wound dmg (CombatManager.objects m rt)))
                     = 0).
    { unfold CombatManager.wound. cbn.
      destruct (Z.eqb_spec (Z.max 0 (CombatManager.current
                                      (CombatManager.hp (CombatManager.objects m rt)) - dmg)) 0)
        as [E|E]; cbn; [tauto|]. rewrite Hlive. split; [discriminate|contradiction]. }
    assert (Hcur : CombatManager.current
                     (CombatManager.hp (CombatManager.wound dmg (CombatManager.objects m rt)))
                   = Z.max 0 (CombatManager.current
                                (CombatManager.hp (CombatManager.objects m rt)) - dmg)).
    { unfold CombatManager.wound. cbn. now destruct (Z.max 0 _ =? 0). }
    destruct (CombatManager.isDefeated
                (CombatManager.wound dmg (CombatManager.objects m rt))) eqn:Hd;
      run_mgr; rewrite ?write_same;
      (split; [repeat split|]); (split; [reflexivity|]);
      (split; [intros r Hr; now apply write_other|]);
      (split; [reflexivity|]); (split; [exact Hcur|]); (split; [rewrite Hd; exact Hwound|]);
      (split; [reflexivity|]); (split; [eauto|]);
      rewrite Hd, ?length_app; cbn; lia.
  - run_mgr. split; [repeat split|]. split; [reflexivity|]. split; [reflexivity|].
    split; [reflexivity|]. split; [reflexivity|]. split; [eauto|reflexivity].
Qed.

Lemma processAttack_contract_witness :
  fst (CombatManager.getCombatant "aria" Scenario.duel) = Some 0%nat /\
  fst (CombatManager.getCombatant "goblin" Scenario.duel) = Some 1%nat /\
  CombatManager.isDefeated (CombatManager.objects Scenario.duel 1%nat) = false /\
  CombatManager.same_schedule (CombatManager.state Scenario.duel)
    (CombatManager.state
       (snd (CombatManager.processAttack (Some Scenario.fallbackNarrative) "aria" "goblin" 6
               {| CombatManager.dice := 1; CombatManager.sides := 8;
                  CombatManager.bonus := 3 |} Scenario.duel))).
Proof.
  split; [reflexivity|]. split; [reflexivity|]. split; [reflexivity|].
  exact (proj1 (processAttack_contract Scenario.fallbackNarrative "aria" "goblin" 6
                  {| CombatManager.dice := 1; CombatManager.sides := 8;
                     CombatManager.bonus := 3 |} Scenario.duel 0%nat 1%nat
                  eq_refl eq_refl eq_refl)).
Defined.

(** ** Combat manager: the end of combat *)

Lemma no_match_iff {A} (p : A -> bool) (l : list A) :
  Nat.eqb (List.length (filter p l)) 0 = negb (existsb p l).
Proof.
  induction l as [|x l IH]; cbn; [reflexivity|]. destruct (p x); cbn; [reflexivity|exact IH].
Qed.

(** X15: combat has ended exactly when one side has nobody standing.  The
    players are looked at first: with no player standing the enemies win,
    also when no enemy stands either, and on an empty roster.  The active
    flag is cleared on an ended verdict and otherwise kept. *)
Theorem checkCombatEnd_verdict (m : CombatManager.Machine) :
  let roster := CombatManager.combatants (CombatManager.state m) in
  let side b r := Bool.eqb (CombatManager.isPlayer (CombatManager.objects m r)) b
                  && CombatManager.standing m r in
  let players := existsb (side true) roster in
  let enemies := existsb (side false) roster in
  let v := fst (CombatManager.checkCombatEnd m) in
  let s' := CombatManager.state (snd (CombatManager.checkCombatEnd m)) in
  CombatManager.ended v = negb (players && enemies) /\
  CombatManager.winners v =
    (if negb players then Some CombatManager.Enemies
     else if negb enemies then Some CombatManager.Players
     else None) /\
  CombatManager.isActive s'
    = CombatManager.isActive (CombatManager.state m) && negb (CombatManager.ended v) /\
  (roster = [] -> CombatManager.winners v = Some CombatManager.Enemies).
Proof.
  cbv zeta.
  assert (Hp : forall l,
             filter (fun r => CombatManager.isPlayer (CombatManager.objects m r)
                              && negb (CombatManager.isDefeated (CombatManager.objects m r))) l
             = filter (fun r => Bool.eqb (CombatManager.isPlayer (CombatManager.objects m r)) true
                                && CombatManager.standing m r) l).
  { intro l. apply filter_ext. intro r. unfold CombatManager.standing.
    now destruct (CombatManager.isPlayer (CombatManager.objects m r)). }
  assert (He : forall l,
             filter (fun r => negb (CombatManager.isPlayer (CombatManager.objects m r))
                              && negb (CombatManager.isDefeated (CombatManager.objects m r))) l
             = filter (fun r => Bool.eqb (CombatManager.isPlayer (CombatManager.objects m r)) false
                                && CombatManager.standing m r) l).
  { intro l. apply filter_ext. intro r. unfold CombatManager.standing.
    now destruct (CombatManager.isPlayer (CombatManager.objects m r)). }
  unfold CombatManager.checkCombatEnd. cbv zeta. rewrite Hp, He, !no_match_iff.
  destruct (existsb _ _) eqn:Eplayers at 1; rewrite ?Eplayers; cbn [negb].
  - destruct (existsb _ _) eqn:Eenemies at 1; rewrite ?Eenemies; cbn [negb andb];
      run_mgr; cbn; rewrite ?andb_true_r, ?andb_false_r; repeat split;
      intro Hnil; rewrite Hnil in Eplayers; discriminate.
  - run_mgr. cbn. rewrite ?andb_false_r. repeat split.
Qed.

Lemma log_grows_refl (s : CombatManager.CombatState) : CombatManager.log_grows s s.
Proof. exists []. now rewrite app_nil_r. Qed.

Lemma log_grows_trans (s1 s2 s3 : CombatManager.CombatState) :
  CombatManager.log_grows s1 s2 -> CombatManager.log_grows s2 s3 -> CombatManager.log_grows s1 s3.
Proof. intros [a Ha] [b Hb]. exists (a ++ b)%list. now rewrite Hb, Ha, app_assoc. Qed.

Ltac grow :=
  cbn [CombatManager.state CombatManager.combatLog CombatManager.isActive];
  first [ now (split; [auto | apply log_grows_refl])
        | now (split; [auto | eexists; reflexivity])
        | now (split; [auto | eexists; rewrite <- app_assoc; reflexivity]) ].

Lemma processAttack_stays_down (dm : option CombatManager.Narrator) (a t : string) (b : Z)
  (d : CombatManager.DamageRoll) (m : CombatManager.Machine) :
  CombatManager.stays_down (CombatManager.state m)
    (CombatManager.state (snd (CombatManager.processAttack dm a t b d m))).
Proof.
  unfold CombatManager.stays_down, CombatManager.log_grows, CombatManager.processAttack, CombatManager.describe. run_mgr.
  destruct (find _ _) as [ra|]; [|grow].
  destruct (find _ _) as [rt|]; [|grow].
  destruct (CombatManager.isDefeated (CombatManager.objects m rt)); [grow|].
  destruct (RulesEngine.resolveAttack _ _ _ _) as [res g1].
  destruct (RulesEngine.success res).
  - destruct (RulesEngine.resolveDamage _ _ _ _ _) as [dmg g2].
    destruct dm as [narrate|]; run_mgr; [|grow].
    match goal with |- context [if ?c then _ else _] => destruct c end; run_mgr; grow.
  - destruct dm as [narrate|]; run_mgr; grow.
Qed.

Lemma applyDamage_stays_down (t : string) (amount : Z) (src : string)
  (m : CombatManager.Machine) :
  CombatManager.stays_down (CombatManager.state m)
    (CombatManager.state (snd (CombatManager.applyDamage t amount src m))).
Proof.
  unfold CombatManager.stays_down, CombatManager.log_grows, CombatManager.applyDamage. run_mgr.
  destruct (find _ _) as [rt|]; [|grow].
  destruct (CombatManager.isDefeated (CombatManager.objects m rt)); [grow|].
  match goal with |- context [if ?c then _ else _] => destruct c end; run_mgr; grow.
Qed.

Lemma applyHealing_stays_down (t : string) (healing : Z) (src : string)
  (m : CombatManager.Machine) :
  CombatManager.stays_down (CombatManager.state m)
    (CombatManager.state (snd (CombatManager.applyHealing t healing src m))).
Proof.
  unfold CombatManager.stays_down, CombatManager.log_grows, CombatManager.applyHealing. run_mgr.
  destruct (find _ _) as [rt|]; [|grow].
  destruct (CombatManager.isDefeated (CombatManager.objects m rt)); grow.
Qed.

Lemma nextTurn_loop_log (more : nat) :
  forall m : CombatManager.Machine,
    CombatManager.log_grows (CombatManager.state m)
      (CombatManager.state (snd (CombatManager.nextTurn_loop more m))).
Proof.
  induction more as [|more IH]; intro m; unfold CombatManager.log_grows;
    cbn [CombatManager.nextTurn_loop]; unfold CombatManager.getCurrentCombatant; run_mgr.
  all: destruct (CombatManager.is_zero _); run_mgr.
  all: try (destruct (negb _ || _); run_mgr; eexists; reflexivity).
  all: destruct (negb _ || _); run_mgr.
  all: try match goal with
           | |- context [CombatManager.at_index ?l ?i] =>
               destruct (CombatManager.at_index l i) as [r|]; run_mgr
           end.
  all: try match goal with
           | |- context [CombatManager.isDefeated ?c] =>
               destruct (CombatManager.isDefeated c)
           end.
  all: cbn [negb]; run_mgr; try (exists []; now rewrite app_nil_r).
  all: match goal with
       | |- context [CombatManager.nextTurn_loop _ ?m1] =>
           destruct (IH m1) as [suffix Hs]; run_mgr; eauto
       end.
Qed.

Lemma exec_stays_down (dm : option CombatManager.Narrator) (c : CombatManager.Call)
  (m : CombatManager.Machine) :
  CombatManager.restarts c = false ->
  CombatManager.stays_down (CombatManager.state m) (CombatManager.state (CombatManager.exec dm c m)).
Proof.
  intro Hre. destruct c; try discriminate; cbn [CombatManager.exec].
  - rewrite getCurrentCombatant_pure. split; [auto|apply log_grows_refl].
  - split; [auto|apply log_grows_refl].
  - split; [auto|apply log_grows_refl].
  - apply processAttack_stays_down.
  - apply applyDamage_stays_down.
  - apply applyHealing_stays_down.
  - split.
    + destruct (nextTurn_frame m) as (_ & _ & _ & ->). auto.
    + destruct (CombatManager.isActive (CombatManager.state m)) eqn:Hact.
      * rewrite (nextTurn_active m Hact). apply nextTurn_loop_log.
      * rewrite (nextTurn_inactive m Hact). apply log_grows_refl.
  - unfold CombatManager.stays_down, CombatManager.log_grows, CombatManager.checkCombatEnd.
    repeat match goal with |- context [if ?b then _ else _] => destruct b end;
      run_mgr; grow.
  - split; [auto|apply log_grows_refl].
  - split; [auto|apply log_grows_refl].
  - unfold CombatManager.stays_down, CombatManager.log_grows, CombatManager.endCombat. run_mgr. grow.
Qed.

Lemma inactive_call_keeps_schedule (dm : option CombatManager.Narrator)
  (c : CombatManager.Call) (m : CombatManager.Machine) :
  CombatManager.restarts c = false ->
  CombatManager.isActive (CombatManager.state m) = false ->
  CombatManager.same_schedule (CombatManager.state m)
    (CombatManager.state (CombatManager.exec dm c m)).
Proof.
  intros Hre Hact.
  assert (Hturn : c = CombatManager.NextTurn \/ c <> CombatManager.NextTurn)
    by (destruct c; (now left) || (right; discriminate)).
  destruct Hturn as [->|Hnt].
  - cbn [CombatManager.exec]. rewrite (nextTurn_inactive m Hact). repeat split.
  - apply (exec_effect dm c m Hre Hnt).
Qed.

(** X16: a combat that is not active stays so until [startCombat]: whatever is
    called in between, the flag stays off, round, turn index and roster do
    not move, [getCurrentCombatant] answers nobody and [nextTurn] does
    nothing. *)
Theorem ended_combat_stays_ended (dm : option CombatManager.Narrator)
  (calls : list CombatManager.Call) (m : CombatManager.Machine)
  (Hdown : CombatManager.isActive (CombatManager.state m) = false)
  (Hcalls : forallb (fun c => negb (CombatManager.restarts c)) calls = true) :
  let m' := CombatManager.run dm calls m in
  CombatManager.isActive (CombatManager.state m') = false /\
  CombatManager.same_schedule (CombatManager.state m) (CombatManager.state m') /\
  fst (CombatManager.getCurrentCombatant m') = None /\
  CombatManager.nextTurn m' =
    ({| CombatManager.newRound := false; CombatManager.currentCombatant := None |}, m').
Proof.
  cbv zeta.
  assert (H : CombatManager.isActive (CombatManager.state (CombatManager.run dm calls m)) = false
              /\ CombatManager.same_schedule (CombatManager.state m)
                   (CombatManager.state (CombatManager.run dm calls m))).
  { revert m Hdown. induction calls as [|c calls IH]; intros m Hdown; [repeat split; auto|].
    cbn in Hcalls. apply andb_prop in Hcalls as [Hc Hcalls]. apply negb_true_iff in Hc.
    change (CombatManager.run dm (c :: calls) m)
      with (CombatManager.run dm calls (CombatManager.exec dm c m)).
    pose proof (proj1 (exec_stays_down dm c m Hc) Hdown) as Hdown'.
    destruct (inactive_call_keeps_schedule dm c m Hc Hdown) as (Hr & Ht & Hl).
    destruct (IH Hcalls _ Hdown') as (Hfinal & Hr' & Ht' & Hl').
    split; [exact Hfinal|]. repeat split; congruence. }
  destruct H as [Hfinal Hsched]. split; [exact Hfinal|]. split; [exact Hsched|].
  split; [|now apply nextTurn_inactive].
  unfold CombatManager.getCurrentCombatant. run_mgr. now rewrite Hfinal.
Qed.

Lemma ended_combat_stays_ended_witness :
  CombatManager.isActive (CombatManager.state Scenario.calledOff) = false /\
  forallb (fun c => negb (CombatManager.restarts c)) Scenario.routine = true /\
  CombatManager.isActive
    (CombatManager.state (CombatManager.run Scenario.dm Scenario.routine Scenario.calledOff))
  = false.
Proof.
  split; [reflexivity|]. split; [reflexivity|].
  exact (proj1 (ended_combat_stays_ended Scenario.dm Scenario.routine Scenario.calledOff
                  eq_refl eq_refl)).
Defined.

(** X17: short of [startCombat], the log is only ever added to: what [getLog]
    gave before a sequence of calls is the beginning of what it gives after. *)
Theorem log_only_grows (dm : option CombatManager.Narrator)
  (calls : list CombatManager.Call) (m : CombatManager.Machine)
  (Hcalls : forallb (fun c => negb (CombatManager.restarts c)) calls = true) :
  exists suffix,
    fst (CombatManager.getLog (CombatManager.run dm calls m))
      = (fst (CombatManager.getLog m) ++ suffix)%list.
Proof.
  change (CombatManager.log_grows (CombatManager.state m)
            (CombatManager.state (CombatManager.run dm calls m))).
  revert m. induction calls as [|c calls IH]; intro m; [apply log_grows_refl|].
  cbn in Hcalls. apply andb_prop in Hcalls as [Hc Hcalls]. apply negb_true_iff in Hc.
  change (CombatManager.run dm (c :: calls) m)
    with (CombatManager.run dm calls (CombatManager.exec dm c m)).
  eapply log_grows_trans; [apply (exec_stays_down dm c m Hc)|apply (IH Hcalls)].
Qed.

Lemma log_only_grows_witness :
  forallb (fun c => negb (CombatManager.restarts c)) Scenario.routine = true /\
  exists suffix,
    fst (CombatManager.getLog (CombatManager.run Scenario.dm Scenario.routine Scenario.duel))
      = (fst (CombatManager.getLog Scenario.duel) ++ suffix)%list.
Proof.
  split; [reflexivity|].
  exact (log_only_grows Scenario.dm Scenario.routine Scenario.duel eq_refl).
Defined.

(** ** Combat manager: hit points against the defeated flag *)

Lemma touched_keeps_settled (c : CombatManager.Call)
  (f : CombatManager.Combatant -> CombatManager.Combatant) (x : CombatManager.Combatant) :
  CombatManager.touched_by c f -> CombatManager.nonnegative_amount c ->
  CombatManager.isDefeated x = false ->
  CombatManager.hp_within x -> CombatManager.settled x -> CombatManager.settled (f x).
Proof.
  unfold CombatManager.hp_within, CombatManager.settled.
  intros [a t b d dmg Hdmg|t amount src|t healing src] Hnn Hlive Hx Hs; cbn in Hnn.
  1,2: unfold CombatManager.wound; cbn;
    match goal with |- context [?v =? 0] => destruct (Z.eqb_spec v 0) end; cbn;
    rewrite ?Hlive; split; congruence || tauto.
  unfold CombatManager.heal. cbn. rewrite Hlive.
  assert (CombatManager.current (CombatManager.hp x) <> 0)
    by (intro E; apply Hs in E; congruence).
  split; [discriminate|lia].
Qed.

Lemma exec_keeps_settled (dm : option CombatManager.Narrator) (c : CombatManager.Call)
  (m : CombatManager.Machine) (r : CombatManager.Ref) :
  CombatManager.nonnegative_amount c ->
  CombatManager.hp_within (CombatManager.objects m r) ->
  CombatManager.settled (CombatManager.objects m r) ->
  CombatManager.settled (CombatManager.objects (CombatManager.exec dm c m) r).
Proof.
  intros Hnn Hr Hs.
  assert (Hkind : CombatManager.restarts c = true \/ c = CombatManager.NextTurn \/
                  (CombatManager.restarts c = false /\ c <> CombatManager.NextTurn))
    by (destruct c; cbn; auto; right; right; split; auto; discriminate).
  destruct Hkind as [Hre|[->|[Hre Hnt]]].
  - destruct c; try discriminate. exact Hs.
  - cbn [CombatManager.exec]. now destruct (nextTurn_frame m) as (-> & _).
  - destruct (exec_effect dm c m Hre Hnt) as (_ & [->|(t & f & Hf & Hlive & ->)]);
      [exact Hs|].
    destruct (Nat.eq_dec r t) as [->|Hne].
    + rewrite write_same. now apply (touched_keeps_settled c).
    + now rewrite write_other.
Qed.

(** X18: for a combatant within its hit points whose defeated flag says
    exactly that none are left, every sequence of calls with amounts that are
    not negative keeps it so: the flag is on exactly at 0 hit points. *)
Theorem defeated_iff_no_hit_points (dm : option CombatManager.Narrator)
  (calls : list CombatManager.Call) (m : CombatManager.Machine) (r : CombatManager.Ref)
  (Hcalls : Forall CombatManager.nonnegative_amount calls)
  (Hhp : CombatManager.hp_within (CombatManager.objects m r))
  (Hsettled : CombatManager.settled (CombatManager.objects m r)) :
  CombatManager.settled (CombatManager.objects (CombatManager.run dm calls m) r).
Proof.
  revert m Hhp Hsettled.
  induction Hcalls as [|c calls Hc _ IH]; intros m Hhp Hs; [exact Hs|].
  apply (IH (CombatManager.exec dm c m)).
  - now apply exec_keeps_hp.
  - now apply exec_keeps_settled.
Qed.

Lemma defeated_iff_no_hit_points_witness :
  Forall CombatManager.nonnegative_amount Scenario.routine /\
  CombatManager.hp_within (CombatManager.objects Scenario.duel 1%nat) /\
  CombatManager.settled (CombatManager.objects Scenario.duel 1%nat) /\
  CombatManager.settled
    (CombatManager.objects (CombatManager.run Scenario.dm Scenario.routine Scenario.duel)
       1%nat).
Proof.
  assert (Hcalls : Forall CombatManager.nonnegative_amount Scenario.routine)
    by (repeat constructor; cbn; lia).
  assert (Hhp : CombatManager.hp_within (CombatManager.objects Scenario.duel 1%nat))
    by (cbv; split; discriminate).
  assert (Hs : CombatManager.settled (CombatManager.objects Scenario.duel 1%nat))
    by (cbv; split; discriminate).
  split; [exact Hcalls|]. split; [exact Hhp|]. split; [exact Hs|].
  exact (defeated_iff_no_hit_points Scenario.dm Scenario.routine Scenario.duel 1%nat
           Hcalls Hhp Hs).
Defined.

(** X19: on a target that stands, the manager's [applyDamage] ends where the
    rules engine's does, cut off at 0 instead of -10, and marks the target
    defeated exactly when nothing is left; the manager's [applyHealing] ends
    where the rules engine's does and never marks anyone defeated; neither
    writes to another combatant. *)
Theorem manager_hp_follows_rules_engine (targetId : string) (amount : Z) (source : string)
  (m : CombatManager.Machine) (rt : CombatManager.Ref)
  (Htarget : fst (CombatManager.getCombatant targetId m) = Some rt)
  (Hlive : CombatManager.isDefeated (CombatManager.objects m rt) = false) :
  let target := CombatManager.objects m rt in
  let cur := CombatManager.current (CombatManager.hp target) in
  let top := CombatManager.max (CombatManager.hp target) in
  let hurt := CombatManager.objects (snd (CombatManager.applyDamage targetId amount source m)) rt in
  let mended :=
    CombatManager.objects (snd (CombatManager.applyHealing targetId amount source m)) rt in
  CombatManager.current (CombatManager.hp hurt)
    = Z.max 0 (RulesEngine.newHP (RulesEngine.applyDamage cur top amount)) /\
  (CombatManager.isDefeated hurt = true <-> cur - amount <= 0) /\
  CombatManager.current (CombatManager.hp mended)
    = RulesEngine.healedHP (RulesEngine.applyHealing cur top amount) /\
  CombatManager.isDefeated mended = false /\
  (forall r, r <> rt ->
     CombatManager.objects (snd (CombatManager.applyDamage targetId amount source m)) r
       = CombatManager.objects m r /\
     CombatManager.objects (snd (CombatManager.applyHealing targetId amount source m)) r
       = CombatManager.objects m r).
Proof.
  cbv zeta. cbn [fst CombatManager.getCombatant] in Htarget.
  unfold CombatManager.applyDamage, CombatManager.applyHealing. run_mgr.
  rewrite Htarget. cbv beta iota. rewrite Hlive.
  match goal with |- context [if ?c then _ else _] => destruct c end; run_mgr.
  all: rewrite !write_same, applyDamage_newHP.
  all: unfold CombatManager.wound, CombatManager.heal, RulesEngine.applyHealing; cbn.
  all: match goal with |- context [?v =? 0] => destruct (Z.eqb_spec v 0) end; cbn.
  all: rewrite ?Hlive.
  all: repeat split; try lia; try congruence; try (intros; now apply write_other).
Qed.

Lemma manager_hp_follows_rules_engine_witness :
  fst (CombatManager.getCombatant "goblin" Scenario.duel) = Some 1%nat /\
  CombatManager.isDefeated (CombatManager.objects Scenario.duel 1%nat) = false /\
  CombatManager.current
    (CombatManager.hp
       (CombatManager.objects
          (snd (CombatManager.applyDamage "goblin" 40 "rockfall" Scenario.duel)) 1%nat))
  = Z.max 0 (RulesEngine.newHP (RulesEngine.applyDamage 6 6 40)).
Proof.
  split; [reflexivity|]. split; [reflexivity|].
  exact (proj1 (manager_hp_follows_rules_engine "goblin" 40 "rockfall" Scenario.duel 1%nat
                  eq_refl eq_refl)).
Defined.

(** ** Combat manager: whose turn it is *)

(** X20: a combat started on an empty roster has nobody to act: the current
    combatant is nobody, [nextTurn] opens no round, writes no log line and
    leaves [NaN] as turn index, and [checkCombatEnd] gives the enemies the
    day. *)
Theorem empty_roster_has_no_turns (m : CombatManager.Machine)
  (Hempty : CombatManager.combatants (CombatManager.state m) = [])
  (Hact : CombatManager.isActive (CombatManager.state m) = true) :
  let m' := snd (CombatManager.nextTurn m) in
  fst (CombatManager.getCurrentCombatant m) = None /\
  fst (CombatManager.nextTurn m) =
    {| CombatManager.newRound := false; CombatManager.currentCombatant := None |} /\
  CombatManager.turnIndex (CombatManager.state m') = CombatManager.NaN /\
  CombatManager.round (CombatManager.state m') = CombatManager.round (CombatManager.state m) /\
  CombatManager.combatLog (CombatManager.state m')
    = CombatManager.combatLog (CombatManager.state m) /\
  fst (CombatManager.getCurrentCombatant m') = None /\
  CombatManager.winners (fst (CombatManager.checkCombatEnd m)) = Some CombatManager.Enemies.
Proof.
  cbv zeta. rewrite (nextTurn_active m Hact), Hempty.
  unfold CombatManager.checkCombatEnd.
  cbn [List.length Nat.pred CombatManager.nextTurn_loop].
  unfold CombatManager.getCurrentCombatant. run_mgr. rewrite Hempty, Hact. cbn.
  destruct (CombatManager.turnIndex (CombatManager.state m)); cbn;
    repeat match goal with |- context [if ?c then _ else _] => destruct c end;
    cbn; repeat split.
Qed.

Lemma empty_roster_has_no_turns_witness :
  CombatManager.combatants
    (CombatManager.state
       (CombatManager.run None [CombatManager.StartCombat []]
          (CombatManager.fresh Scenario.party (forced [])))) = [] /\
  CombatManager.isActive
    (CombatManager.state
       (CombatManager.run None [CombatManager.StartCombat []]
          (CombatManager.fresh Scenario.party (forced [])))) = true /\
  CombatManager.turnIndex
    (CombatManager.state
       (snd (CombatManager.nextTurn
               (CombatManager.run None [CombatManager.StartCombat []]
                  (CombatManager.fresh Scenario.party (forced [])))))) = CombatManager.NaN.
Proof.
  split; [reflexivity|]. split; [reflexivity|].
  destruct (empty_roster_has_no_turns
              (CombatManager.run None [CombatManager.StartCombat []]
                 (CombatManager.fresh Scenario.party (forced []))) eq_refl eq_refl)
    as (_ & _ & H & _).
  exact H.
Defined.

(** X21: whatever methods were called before, a combat that is active and has
    a roster has a current combatant: the turn index is a position of the
    roster and [getCurrentCombatant] returns who is there. *)
Theorem current_combatant_exists (dm : option CombatManager.Narrator)
  (m : CombatManager.Machine)
  (Hreach : CombatManager.reachable dm m)
  (Hact : CombatManager.isActive (CombatManager.state m) = true)
  (Hroster : CombatManager.combatants (CombatManager.state m) <> []) :
  exists k r,
    CombatManager.turn_at k (CombatManager.state m) /\
    nth_error (CombatManager.combatants (CombatManager.state m)) k = Some r /\
    CombatManager.getCurrentCombatant m = (Some r, m).
Proof.
  destruct (reachable_scheduled dm m Hreach) as [Hnil|[k Hat]]; [contradiction|].
  destruct (nth_error (CombatManager.combatants (CombatManager.state m)) k) as [r|] eqn:Hr.
  - exists k, r. split; [exact Hat|]. split; [exact Hr|].
    destruct Hat as [Hidx Hk].
    unfold CombatManager.getCurrentCombatant. run_mgr. rewrite Hact, Hidx, at_index_nat, Hr.
    destruct (Nat.eqb_spec (List.length (CombatManager.combatants (CombatManager.state m))) 0);
      [lia|reflexivity].
  - destruct Hat as [_ Hk]. apply nth_error_None in Hr. lia.
Qed.

Lemma current_combatant_exists_witness :
  CombatManager.reachable Scenario.dm Scenario.skirmish /\
  CombatManager.isActive (CombatManager.state Scenario.skirmish) = true /\
  CombatManager.combatants (CombatManager.state Scenario.skirmish) <> [] /\
  exists k r,
    CombatManager.turn_at k (CombatManager.state Scenario.skirmish) /\
    nth_error (CombatManager.combatants (CombatManager.state Scenario.skirmish)) k = Some r /\
    CombatManager.getCurrentCombatant Scenario.skirmish = (Some r, Scenario.skirmish).
Proof.
  assert (Hreach : CombatManager.reachable Scenario.dm Scenario.skirmish).
  { unfold CombatManager.reachable, Scenario.skirmish. eauto. }
  assert (Hne : CombatManager.combatants (CombatManager.state Scenario.skirmish) <> [])
    by discriminate.
  split; [exact Hreach|]. split; [reflexivity|]. split; [exact Hne|].
  exact (current_combatant_exists Scenario.dm Scenario.skirmish Hreach eq_refl Hne).
Defined.

(** X22: [nextTurn] writes to no combatant.  From position [k] it goes to the
    first position further down the roster whose combatant stands, passing
    over the defeated in between and leaving round and log alone; when
    nobody further down stands it goes back to position 0 and opens a round. *)
Theorem nextTurn_finds_next_standing (m : CombatManager.Machine) (k : nat)
  (res : CombatManager.TurnResult) (m' : CombatManager.Machine)
  (Hact : CombatManager.isActive (CombatManager.state m) = true)
  (Hat : CombatManager.turn_at k (CombatManager.state m))
  (Hnext : CombatManager.nextTurn m = (res, m')) :
  let roster := CombatManager.combatants (CombatManager.state m) in
  CombatManager.objects m' = CombatManager.objects m /\
  CombatManager.rng m' = CombatManager.rng m /\
  CombatManager.combatants (CombatManager.state m') = roster /\
  ((exists k' r,
      (k < k')%nat /\ nth_error roster k' = Some r /\
      CombatManager.standing m r = true /\
      (forall j r', (k < j < k')%nat -> nth_error roster j = Some r' ->
                    CombatManager.standing m r' = false) /\
      res = {| CombatManager.newRound := false; CombatManager.currentCombatant := Some r |} /\
      CombatManager.turn_at k' (CombatManager.state m') /\
      CombatManager.state m' = CombatManager.state (CombatManager.moved k' m))
   \/
   ((forall j r', (k < j)%nat -> nth_error roster j = Some r' ->
                  CombatManager.standing m r' = false) /\
    res = {| CombatManager.newRound := true;
             CombatManager.currentCombatant := nth_error roster 0 |} /\
    CombatManager.turn_at 0 (CombatManager.state m') /\
    CombatManager.state m' = CombatManager.state (CombatManager.wrapped m))).
Proof.
  cbv zeta. pose proof (nextTurn_spec m k Hact Hat) as Hspec.
  destruct (CombatManager.someone_left m k) eqn:Hleft.
  - destruct Hspec as (k' & r & Hlt & Hnth & Hst & Hbetween & Heq).
    rewrite Heq in Hnext. injection Hnext as <- <-.
    split; [reflexivity|]. split; [reflexivity|]. split; [reflexivity|]. left.
    exists k', r. repeat split; auto. cbn. apply nth_error_Some. congruence.
  - rewrite Hspec in Hnext. injection Hnext as <- <-.
    split; [reflexivity|]. split; [reflexivity|]. split; [reflexivity|]. right.
    split; [|split; [reflexivity|split; [|reflexivity]]].
    + intros j r' Hj Hnth. unfold CombatManager.someone_left in Hleft.
      destruct (CombatManager.standing m r') eqn:Hs; [|reflexivity].
      assert (Hex : existsb (CombatManager.standing m)
                      (skipn (S k) (CombatManager.combatants (CombatManager.state m))) = true).
      { apply existsb_exists. exists r'. split; [|exact Hs].
        apply (nth_error_In _ (j - S k)). rewrite nth_error_skipn.
        replace (S k + (j - S k))%nat with j by lia. exact Hnth. }
      congruence.
    + split; [reflexivity|]. cbn. destruct Hat. lia.
Qed.

Lemma nextTurn_finds_next_standing_witness :
  CombatManager.isActive (CombatManager.state Scenario.duel) = true /\
  CombatManager.turn_at 0 (CombatManager.state Scenario.duel) /\
  CombatManager.objects (snd (CombatManager.nextTurn Scenario.duel))
    = CombatManager.objects Scenario.duel.
Proof.
  assert (Hat : CombatManager.turn_at 0 (CombatManager.state Scenario.duel))
    by (split; [reflexivity|cbn; lia]).
  split; [reflexivity|]. split; [exact Hat|].
  exact (proj1 (nextTurn_finds_next_standing Scenario.duel 0
                  (fst (CombatManager.nextTurn Scenario.duel))
                  (snd (CombatManager.nextTurn Scenario.duel)) eq_refl Hat
                  (surjective_pairing _))).
Defined.

(** ** Combat manager: who acts first *)

Lemma find_is_first_kept {A} (p : A -> bool) (l : list A) :
  find p l = hd_error (filter p l).
Proof. induction l as [|x l IH]; cbn; [reflexivity|]. now destruct (p x). Qed.

(** X23: right after [startCombat] the current combatant is one of the
    roster with the highest initiative, and of those the first in the order
    the roster was handed in. *)
Theorem highest_initiative_acts_first (roster : list CombatManager.Ref)
  (m : CombatManager.Machine) (Hroster : roster <> []) :
  let m' := snd (CombatManager.startCombat roster m) in
  let init r := CombatManager.initiative (CombatManager.objects m r) in
  exists r,
    CombatManager.getCurrentCombatant m' = (Some r, m') /\
    In r roster /\
    (forall r', In r' roster -> init r' <= init r) /\
    find (fun x => init x =? init r) roster = Some r.
Proof.
  cbv zeta.
  set (init := fun r => CombatManager.initiative (CombatManager.objects m r)).
  pose proof (sort_permutes init roster) as Hperm.
  pose proof (sort_orders init roster) as Hsorted.
  pose proof (fun v => sort_keeps_ties init v roster) as Hties.
  set (m' := snd (CombatManager.startCombat roster m)).
  assert (Hc : CombatManager.combatants (CombatManager.state m')
               = CombatManager.sort (fun a b => init b - init a) roster) by reflexivity.
  assert (Ha : CombatManager.isActive (CombatManager.state m') = true) by reflexivity.
  assert (Hi : CombatManager.turnIndex (CombatManager.state m') = CombatManager.Num 0)
    by reflexivity.
  clearbody m'.
  destruct (CombatManager.sort (fun a b => init b - init a) roster) as [|r rest] eqn:Hs.
  - apply Permutation_sym, Permutation_nil in Hperm. contradiction.
  - exists r. split; [|split; [|split]].
    + unfold CombatManager.getCurrentCombatant. run_mgr. now rewrite Ha, Hi, Hc.
    + eapply Permutation_in; [apply Permutation_sym, Hperm|now left].
    + intros r' Hr'. apply (Permutation_in _ Hperm) in Hr'.
      inversion Hsorted as [|? ? _ Hall]; subst.
      destruct Hr' as [<-|Hr']; [lia|].
      rewrite Forall_forall in Hall. specialize (Hall r' Hr'). lia.
    + rewrite find_is_first_kept, <- (Hties (init r)). cbn. now rewrite Z.eqb_refl.
Qed.

Lemma highest_initiative_acts_first_witness :
  [2; 1; 0]%nat <> [] /\
  exists r,
    CombatManager.getCurrentCombatant
      (snd (CombatManager.startCombat [2; 1; 0]%nat
              (CombatManager.fresh Scenario.party (forced []))))
    = (Some r, snd (CombatManager.startCombat [2; 1; 0]%nat
                      (CombatManager.fresh Scenario.party (forced [])))) /\
    In r [2; 1; 0]%nat.
Proof.
  assert (Hne : [2; 1; 0]%nat <> []) by discriminate.
  split; [exact Hne|].
  destruct (highest_initiative_acts_first [2; 1; 0]%nat
              (CombatManager.fresh Scenario.party (forced [])) Hne) as (r & Hcur & Hin & _).
  exists r. split; [exact Hcur|exact Hin].
Defined.

(** ** Enemy policy: what an enemy attacks with *)

Lemma lower_plain (c : Ascii.ascii) : EnemyAI.plain c = true -> Js.lower c = c.
Proof.
  unfold EnemyAI.plain, EnemyAI.letter, Js.lower. cbv zeta. intro H.
  apply andb_prop in H as [_ H]. apply negb_true_iff, orb_false_elim in H as [H _].
  now rewrite H.
Qed.

Lemma toLowerCase_app (a b : string) :
  Js.toLowerCase (a ++ b) = Js.toLowerCase a ++ Js.toLowerCase b.
Proof. induction a as [|c a IH]; cbn; [reflexivity|now rewrite IH]. Qed.

Lemma toLowerCase_plain (s : string) : EnemyAI.every EnemyAI.plain s = true -> Js.toLowerCase s = s.
Proof.
  induction s as [|c s IH]; cbn; [reflexivity|]. intro H. apply andb_prop in H as [Hc Hs].
  now rewrite (lower_plain c Hc), IH.
Qed.

Lemma letter_not_plain (c d : Ascii.ascii) : EnemyAI.letter c = true -> EnemyAI.plain d = true -> c <> d.
Proof.
  intros Hc Hd ->. unfold EnemyAI.plain in Hd. rewrite Hc in Hd. apply andb_prop in Hd as [_ Hd].
  discriminate.
Qed.

Lemma prefix_before_plain (pat : string) :
  EnemyAI.every EnemyAI.letter pat = true ->
  forall a s, EnemyAI.every EnemyAI.plain s = true -> String.prefix pat (a ++ s) = String.prefix pat a.
Proof.
  induction pat as [|c pat IH]; intros Hpat a s Hs; [now destruct a, s|].
  cbn in Hpat. apply andb_prop in Hpat as [Hc Hpat].
  destruct a as [|x a]; cbn.
  - destruct s as [|d s]; [reflexivity|]. cbn in Hs. apply andb_prop in Hs as [Hd _].
    cbn. destruct (Ascii.ascii_dec c d) as [E|_]; [|reflexivity].
    exfalso. exact (letter_not_plain c d Hc Hd E).
  - destruct (Ascii.ascii_dec c x); [now apply IH|reflexivity].
Qed.

Lemma includes_before_plain (pat : string) :
  EnemyAI.every EnemyAI.letter pat = true ->
  forall a s, EnemyAI.every EnemyAI.plain s = true -> Js.includes (a ++ s) pat = Js.includes a pat.
Proof.
  intros Hpat a s Hs. induction a as [|x a IH].
  - cbn [append]. induction s as [|d s IHs]; [reflexivity|].
    cbn in Hs. apply andb_prop in Hs as [Hd Hs'].
    cbn [Js.includes]. rewrite (IHs Hs').
    change (String d s) with ("" ++ String d s).
    rewrite (prefix_before_plain pat Hpat "" (String d s)) by (cbn; now rewrite Hd, Hs').
    cbn. now rewrite orb_false_r, orb_diag.
  - cbn [append Js.includes]. rewrite IH.
    change (String x (a ++ s)) with (String x a ++ s).
    now rewrite (prefix_before_plain pat Hpat (String x a) s Hs).
Qed.

(** X24: an enemy whose name is a kind followed by digits, spaces or signs
    (the names [createEnemy] gives) attacks with the bonus and the dice of
    that kind, in whatever case the kind is written in the table; a name
    without letters gets the default. *)
Theorem enemy_stats_follow_template (enemy : CombatManager.Combatant) (suffix : string)
  (Hplain : EnemyAI.every EnemyAI.plain suffix = true) :
  let named template := CombatManager.name enemy = template ++ suffix in
  (named "Goblin" -> EnemyAI.stats enemy = EnemyAI.row 2 1 6 0) /\
  (named "Orc" -> EnemyAI.stats enemy = EnemyAI.row 4 1 8 2) /\
  (named "Skeleton" -> EnemyAI.stats enemy = EnemyAI.row 1 1 6 0) /\
  (named "Zombie" -> EnemyAI.stats enemy = EnemyAI.row 1 1 6 1) /\
  (named "Ogre" -> EnemyAI.stats enemy = EnemyAI.row 6 2 8 4) /\
  (named "Dragon" -> EnemyAI.stats enemy = EnemyAI.row 10 3 10 6) /\
  (named "" -> EnemyAI.stats enemy = EnemyAI.row 3 1 6 1).
Proof.
  cbv zeta.
  assert (H : forall template,
             CombatManager.name enemy = template ++ suffix ->
             forall pat, EnemyAI.every EnemyAI.letter pat = true ->
               Js.includes (Js.toLowerCase (CombatManager.name enemy)) pat
               = Js.includes (Js.toLowerCase template) pat).
  { intros template -> pat Hpat.
    rewrite toLowerCase_app, (toLowerCase_plain suffix Hplain).
    now apply includes_before_plain. }
  unfold EnemyAI.stats, EnemyAI.row, EnemyAI.getAttackBonus, EnemyAI.getDamageRoll. cbv zeta.
  repeat split; intro Hname; rewrite !(H _ Hname) by reflexivity; reflexivity.
Qed.

Lemma enemy_stats_follow_template_witness :
  EnemyAI.every EnemyAI.plain " 1" = true /\ EnemyAI.stats Scenario.goblin = EnemyAI.row 2 1 6 0.
Proof.
  split; [reflexivity|].
  exact (proj1 (enemy_stats_follow_template Scenario.goblin " 1" eq_refl) eq_refl).
Defined.

(** ** The enemy's turn *)

Lemma processAttack_spares_others (dm : option CombatManager.Narrator) (a t : string) (b : Z)
  (d : CombatManager.DamageRoll) (m : CombatManager.Machine) (r : CombatManager.Ref) :
  fst (CombatManager.getCombatant t m) <> Some r ->
  CombatManager.objects (snd (CombatManager.processAttack dm a t b d m)) r
    = CombatManager.objects m r.
Proof.
  cbn [fst CombatManager.getCombatant]. intro Hr.
  unfold CombatManager.processAttack, CombatManager.describe. run_mgr.
  match goal with |- context [match find ?p ?l with _ => _ end] => destruct (find p l) as [ra|] end;
    [|reflexivity].
  destruct (find _ _) as [rt|]; [|reflexivity].
  assert (Hne : r <> rt) by congruence.
  destruct (CombatManager.isDefeated (CombatManager.objects m rt)); [reflexivity|].
  destruct (RulesEngine.resolveAttack _ _ _ _) as [res g1].
  destruct (RulesEngine.success res).
  - destruct (RulesEngine.resolveDamage _ _ _ _ _) as [dmg g2].
    destruct dm as [narrate|]; run_mgr.
    + match goal with |- context [if ?c then _ else _] => destruct c end; run_mgr;
        now apply write_other.
    + now apply write_other.
  - destruct dm as [narrate|]; run_mgr; reflexivity.
Qed.

Lemma fold_weaker_in (rest : list CombatManager.Combatant) :
  forall w, In (fold_left EnemyAI.weaker rest w) (w :: rest).
Proof.
  induction rest as [|x rest IH]; intro w; cbn [fold_left]; [now left|].
  unfold EnemyAI.weaker at 2. destruct (Js.lt _ _).
  - right. apply IH.
  - destruct (IH w) as [<-|H]; [now left|right; now right].
Qed.

Lemma decideAction_attacks_target (enemy : CombatManager.Combatant)
  (all : list CombatManager.Combatant) (g : RandomSource) (tid : string) :
  EnemyAI.targetId (fst (EnemyAI.decideAction enemy all g)) = Some tid ->
  exists w, In w all /\ EnemyAI.is_target w = true /\ tid = CombatManager.id w.
Proof.
  unfold EnemyAI.decideAction.
  change (fun c => CombatManager.isPlayer c && negb (CombatManager.isDefeated c))
    with EnemyAI.is_target.
  destruct (filter EnemyAI.is_target all) as [|first rest] eqn:Hf; [discriminate|].
  unfold bind, ret.
  pose proof (fold_weaker_in rest first) as Hin. rewrite <- Hf in Hin.
  apply filter_In in Hin as [Hin Ht].
  destruct (Js.lt _ _); [destruct (random g) as [x g1]; destruct (Js.Qltb x _)|];
    cbn; intro H; try discriminate; injection H as <-; eauto.
Qed.

(** X25: with ids that are all different, an enemy's turn leaves the schedule
    alone and writes to no combatant of the enemy's side and to none that is
    defeated: whom it hurts, if anyone, is a player still standing. *)
Theorem enemies_spare_enemies (dm : option CombatManager.Narrator)
  (combatant : CombatManager.Ref) (m : CombatManager.Machine)
  (Hids : Driver.distinct_ids m) :
  let m' := snd (Driver.enemyTurn dm combatant m) in
  CombatManager.same_schedule (CombatManager.state m) (CombatManager.state m') /\
  (forall r,
     CombatManager.isPlayer (CombatManager.objects m r) = false \/
     CombatManager.isDefeated (CombatManager.objects m r) = true ->
     CombatManager.objects m' r = CombatManager.objects m r).
Proof.
  cbv zeta. unfold Driver.enemyTurn. run_mgr.
  unfold CombatManager.getActiveCombatants. cbv beta iota.
  set (seen := map (CombatManager.objects m) _).
  pose proof (decideAction_attacks_target (CombatManager.objects m combatant) seen
                (CombatManager.rng m)) as Htarget.
  destruct (EnemyAI.decideAction _ _ _) as [decision g1]. cbn [fst] in Htarget.
  destruct (EnemyAI.action decision); try (split; [repeat split|reflexivity]).
  destruct (EnemyAI.targetId decision) as [tid|]; [|split; [repeat split|reflexivity]].
  destruct (String.eqb tid ""); [split; [repeat split|reflexivity]|].
  destruct (Htarget tid eq_refl) as (w & Hw & Htw & ->). clear Htarget.
  set (m1 := {| CombatManager.objects := CombatManager.objects m;
                CombatManager.state := CombatManager.state m;
                CombatManager.rng := g1 |}).
  match goal with
  | |- context [CombatManager.processAttack dm ?a ?t ?b ?d m1] =>
      pose proof (processAttack_effect dm a t b d m1) as Heffect;
      pose proof (fun r => processAttack_spares_others dm a t b d m1 r) as Hspare;
      destruct (CombatManager.processAttack dm a t b d m1) as [result m2]
  end.
  cbn [snd] in Heffect, Hspare.
  assert (Hm2 : forall s0 : CombatManager.Machine,
             snd (match result with
                  | CombatManager.Resolved _ => fun s => (CombatManager.Resolved tt, s)
                  | CombatManager.Rejected => fun s => (CombatManager.Rejected, s)
                  end s0) = s0) by (intro s0; now destruct result).
  rewrite Hm2. split.
  - apply Heffect.
  - intros r Hr.
    change (CombatManager.objects m r) with (CombatManager.objects m1 r).
    apply Hspare. cbn [fst CombatManager.getCombatant]. intro Hfound.
    apply find_some in Hfound as [Hin Hid]. apply String.eqb_eq in Hid.
    subst seen. apply in_map_iff in Hw as (r0 & <- & Hr0).
    apply filter_In in Hr0 as [Hr0 Hstanding].
    assert (Hsame : CombatManager.objects m r = CombatManager.objects m r0)
      by (apply Hids; assumption).
    unfold EnemyAI.is_target in Htw. rewrite <- Hsame in Htw.
    apply andb_prop in Htw as [Hp Hd]. apply negb_true_iff in Hd.
    destruct Hr; congruence.
Qed.

Lemma enemies_spare_enemies_witness :
  Driver.distinct_ids Scenario.duel /\
  CombatManager.objects (snd (Driver.enemyTurn Scenario.dm 1%nat Scenario.duel)) 1%nat
    = CombatManager.objects Scenario.duel 1%nat.
Proof.
  assert (Hids : Driver.distinct_ids Scenario.duel).
  { intros r1 r2 H1 H2. cbn in H1, H2.
    destruct H1 as [<-|[<-|[]]]; destruct H2 as [<-|[<-|[]]];
      cbn; intro Hid; try reflexivity; discriminate Hid. }
  split; [exact Hids|].
  exact (proj2 (enemies_spare_enemies Scenario.dm 1%nat Scenario.duel Hids) 1%nat
           (or_introl eq_refl)).
Defined.
